(** * getopt_port: a shallow embedding of [getopt] and [getopt_long]

    The development follows src/getopt.c.  The C globals ([optarg],
    [optopt], [optind], [opterr], and the two file-static pointers
    [optcursor] and [first]) are the fields of one [state] record that every
    call receives and returns, together with the caller's [argv] array (which
    the code permutes in place), the [int] objects reachable through the
    [flag] and [longindex] pointers, and the text written to [stderr].

    Pointers are kept as pointers: an [argv] element is the address of a
    string, not its text, because the code compares [argv[optind]] with
    [first] by address.  String objects are [const] for this code, so the
    memory holding them is a read-only parameter [mem] of the model. *)

From Stdlib Require Import ZArith List String Ascii Bool Lia Permutation.
Import ListNotations.

Local Open Scope Z_scope.

(** ** Outcomes of a call *)

(** A call either returns, or runs into behaviour the C standard leaves
    undefined (a read through NULL or outside the [argv] array), or is still
    inside one of the two [do ... while] loops when the fuel is spent. *)
Inductive res (A : Type) : Type :=
| Ret (a : A)
| Fault
| Timeout.

Arguments Ret {A} a.
Arguments Fault {A}.
Arguments Timeout {A}.

Definition bind {A B : Type} (m : res A) (k : A -> res B) : res B :=
  match m with
  | Ret a => k a
  | Fault => Fault
  | Timeout => Timeout
  end.

Notation "x <- m ;; k" := (bind m (fun x => k))
  (at level 61, m at next level, right associativity).

(** ** Pointers and strings *)

(** A [const char*]: the string object it points into and the offset inside
    it.  NULL is [None] at the type [option cptr]. *)
Record cptr : Type := mkptr { base : nat; off : nat }.

Definition cptr_eqb (p q : cptr) : bool :=
  Nat.eqb (base p) (base q) && Nat.eqb (off p) (off q).

(** [a == b] on two possibly-NULL pointers. *)
Definition ptr_eqb (a b : option cptr) : bool :=
  match a, b with
  | None, None => true
  | Some p, Some q => cptr_eqb p q
  | _, _ => false
  end.

Definition ptr_add (p : cptr) (n : nat) : cptr := mkptr (base p) (off p + n).

Definition is_null (a : option cptr) : bool :=
  match a with None => true | Some _ => false end.

(** Text is a Rocq [string]: the characters before the terminator.  The
    terminator itself is read as the character [zero]. *)
Fixpoint sdrop (n : nat) (s : string) : string :=
  match n, s with
  | O, _ => s
  | S k, EmptyString => EmptyString
  | S k, String _ t => sdrop k t
  end.

(** [s[n]], the terminator when [n] is the length of [s]. *)
Definition char_at (s : string) (n : nat) : ascii :=
  match String.get n s with
  | Some c => c
  | None => zero
  end.

(** A character converted to [int]; characters are taken with their codes
    0..255. *)
Definition int_of_char (c : ascii) : Z := Z.of_nat (nat_of_ascii c).

(** [strlen]. *)
Definition strlen (s : string) : nat := String.length s.

(** [strchr(s, c)] as the offset of the first occurrence; the terminator is
    part of the string, so looking for [zero] finds the end. *)
Fixpoint strchr (s : string) (c : ascii) : option nat :=
  match s with
  | EmptyString => if Ascii.eqb c zero then Some O else None
  | String x t =>
      if Ascii.eqb x c then Some O
      else match strchr t c with
           | Some k => Some (S k)
           | None => None
           end
  end.

(** [strcspn(s, "=")]-style scan: the length of the longest prefix without
    the character [c]. *)
Fixpoint strcspn (s : string) (c : ascii) : nat :=
  match s with
  | EmptyString => O
  | String x t => if Ascii.eqb x c then O else S (strcspn t c)
  end.

(** [strncmp(a, b, n) == 0]: the first [n] characters agree, the comparison
    stopping at a terminator reached by both. *)
Fixpoint strncmp_eq (a b : string) (n : nat) : bool :=
  match n with
  | O => true
  | S k =>
      match a, b with
      | EmptyString, EmptyString => true
      | String x a', String y b' => Ascii.eqb x y && strncmp_eq a' b' k
      | _, _ => false
      end
  end.

(** ** Long-option descriptors *)

(** Modelled from the spec: the header getopt.h, which declares
    [struct option] and the three argument modes, is not part of src/.  The
    spec gives the mode as one of none, required, optional; the code only
    compares it with [==] and [!=]. *)
Inductive arg_mode : Type :=
| no_argument
| required_argument
| optional_argument.

Definition arg_mode_eqb (a b : arg_mode) : bool :=
  match a, b with
  | no_argument, no_argument => true
  | required_argument, required_argument => true
  | optional_argument, optional_argument => true
  | _, _ => false
  end.

(** Modelled from the spec: [struct option] of getopt.h: a name, an argument
    mode, an optional writable [int] location and the associated value. *)
Record long_option : Type := mkopt {
  name : string;
  has_arg : arg_mode;
  flag : option nat;
  val : Z
}.

(** ** The state threaded through the calls *)

Record state : Type := mkstate {
  argv : list (option cptr);
  optarg : option cptr;
  optopt : Z;
  optind : Z;
  opterr : Z;
  optcursor : option cptr;
  first : option cptr;
  ints : nat -> Z;
  stderr : list string
}.

Definition set_argv (s : state) (a : list (option cptr)) : state :=
  mkstate a (optarg s) (optopt s) (optind s) (opterr s) (optcursor s)
          (first s) (ints s) (stderr s).

Definition set_optarg (s : state) (v : option cptr) : state :=
  mkstate (argv s) v (optopt s) (optind s) (opterr s) (optcursor s)
          (first s) (ints s) (stderr s).

Definition set_optopt (s : state) (v : Z) : state :=
  mkstate (argv s) (optarg s) v (optind s) (opterr s) (optcursor s)
          (first s) (ints s) (stderr s).

Definition set_optind (s : state) (v : Z) : state :=
  mkstate (argv s) (optarg s) (optopt s) v (opterr s) (optcursor s)
          (first s) (ints s) (stderr s).

Definition set_opterr (s : state) (v : Z) : state :=
  mkstate (argv s) (optarg s) (optopt s) (optind s) v (optcursor s)
          (first s) (ints s) (stderr s).

Definition set_optcursor (s : state) (v : option cptr) : state :=
  mkstate (argv s) (optarg s) (optopt s) (optind s) (opterr s) v
          (first s) (ints s) (stderr s).

Definition set_first (s : state) (v : option cptr) : state :=
  mkstate (argv s) (optarg s) (optopt s) (optind s) (opterr s) (optcursor s)
          v (ints s) (stderr s).

Definition set_ints (s : state) (f : nat -> Z) : state :=
  mkstate (argv s) (optarg s) (optopt s) (optind s) (opterr s) (optcursor s)
          (first s) f (stderr s).

(** [fprintf(stderr, ...)]: one more line on the error channel. *)
Definition emit (s : state) (line : string) : state :=
  mkstate (argv s) (optarg s) (optopt s) (optind s) (opterr s) (optcursor s)
          (first s) (ints s) (stderr s ++ [line]).

(** [*l = v] on an [int] object. *)
Definition upd (l : nat) (v : Z) (f : nat -> Z) : nat -> Z :=
  fun x => if Nat.eqb x l then v else f x.

(** [if (l) *l = v;] *)
Definition store_opt (l : option nat) (v : Z) (f : nat -> Z) : nat -> Z :=
  match l with
  | Some x => upd x v f
  | None => f
  end.

(** The state a program starts with: the initialisers of lines 35-42. *)
Definition initial (a : list (option cptr)) : state :=
  mkstate a None 0 1 1 None None (fun _ => 0) [].

(** ** The program *)

Section Model.

(** The string objects of the process, by address.  The code never writes
    through a [const char*], so the memory is the same before and after
    every call. *)
Variable mem : nat -> string.

(** The text a pointer points at. *)
Definition load (p : cptr) : string := sdrop (off p) (mem (base p)).

(** [*p]. *)
Definition deref (p : cptr) : ascii := char_at (mem (base p)) (off p).

(** [argv[i]]; reading outside the array is undefined. *)
Definition arg_at (s : state) (i : Z) : res (option cptr) :=
  if i <? 0 then Fault
  else match nth_error (argv s) (Z.to_nat i) with
       | Some a => Ret a
       | None => Fault
       end.

(** The ["%s"] argument [argv[0]] of the diagnostics. *)
Definition prog_name (s : state) : res string :=
  a <- arg_at s 0 ;;
  match a with
  | Some p => Ret (load p)
  | None => Fault
  end.

Definition newline : string := String (ascii_of_nat 10) EmptyString.

(** [rotate(argv + start, argc)], lines 45-51: the window of [argc] elements
    that begins at [start] is rotated left by one. *)
Definition rotate (a : list (option cptr)) (start argc : Z)
  : res (list (option cptr)) :=
  if argc <=? 1 then Ret a
  else if (0 <=? start) && (start + argc <=? Z.of_nat (List.length a)) then
    match skipn (Z.to_nat start) a with
    | tmp :: rest =>
        Ret (firstn (Z.to_nat start) a
             ++ firstn (Z.to_nat (argc - 1)) rest
             ++ tmp :: skipn (Z.to_nat (argc - 1)) rest)
    | [] => Fault
    end
  else Fault.

(** Lines 65-71 and 202-208: the per-call outputs are cleared, [opterr] is
    set to 0, and an [optind] of 1 or less starts a new pass at 1. *)
Definition enter (s : state) : state :=
  let s := set_optarg s None in
  let s := set_opterr s 0 in
  let s := set_optopt s 0 in
  if optind s <=? 1 then set_optind s 1 else s.

(** The label [no_more_optchars] of [getopt], lines 182-185. *)
Definition no_more_optchars (s : state) : res (Z * state) :=
  Ret (-1, set_first (set_optcursor s None) None).

(** The label [no_more_optchars] of [getopt_long], lines 315-317. *)
Definition no_more_optchars_long (s : state) : res (Z * state) :=
  Ret (-1, set_first s None).

(** The loop of lines 91-93 and 227-229:
    [do rotate(...); while ( *argv[optind] != '-' && argv[optind] != first )]. *)
Fixpoint rotate_to_option (fuel : nat) (argc : Z) (s : state) : res state :=
  match fuel with
  | O => Timeout
  | S k =>
      a <- rotate (argv s) (optind s) (argc - optind s) ;;
      let s := set_argv s a in
      e <- arg_at s (optind s) ;;
      match e with
      | None => Fault
      | Some p =>
          if negb (Ascii.eqb (deref p) "-") && negb (ptr_eqb e (first s))
          then rotate_to_option k argc s
          else Ret s
      end
  end.

(** The loop of lines 109-111:
    [do rotate(...); while (argv[optind] != first)]. *)
Fixpoint rotate_to_anchor (fuel : nat) (argc : Z) (s : state) : res state :=
  match fuel with
  | O => Timeout
  | S k =>
      a <- rotate (argv s) (optind s) (argc - optind s) ;;
      let s := set_argv s a in
      e <- arg_at s (optind s) ;;
      if negb (ptr_eqb e (first s))
      then rotate_to_anchor k argc s
      else Ret s
  end.

(** Where the control goes after the permutation block. *)
Inductive flow : Type :=
| NoMore (s : state)
| Go (s : state).

(** Lines 84-97 of [getopt] and the identical lines 220-233 of
    [getopt_long]; [p] is the non-NULL [argv[optind]]. *)
Definition permute (fuel : nat) (argc : Z) (p : cptr) (s : state) : res flow :=
  if negb (Ascii.eqb (deref p) "-") then
    if argc - optind s <=? 1 then Ret (NoMore s)
    else
      let s := if is_null (first s) then set_first s (Some p) else s in
      s <- rotate_to_option fuel argc s ;;
      e <- arg_at s (optind s) ;;
      if ptr_eqb e (first s) then Ret (NoMore s) else Ret (Go s)
  else Ret (Go s).

(** [optcursor == NULL || *optcursor == 0] *)
Definition cursor_idle (s : state) : bool :=
  match optcursor s with
  | None => true
  | Some c => Ascii.eqb (deref c) zero
  end.

(** Lines 177-180: [if ( optcursor == NULL || *++optcursor == 0 ) ++optind;
    return optchar;] *)
Definition advance (optchar : Z) (s : state) : res (Z * state) :=
  match optcursor s with
  | None => Ret (optchar, set_optind s (optind s + 1))
  | Some c =>
      let s := set_optcursor s (Some (ptr_add c 1)) in
      if Ascii.eqb (deref (ptr_add c 1)) zero
      then Ret (optchar, set_optind s (optind s + 1))
      else Ret (optchar, s)
  end.

(** Lines 116-117: a cursor that is unset or at the end of its element is
    placed just after the leading '-' of [argv[optind]]. *)
Definition pick_cursor (p : cptr) (s : state) : state :=
  if cursor_idle s then set_optcursor s (Some (ptr_add p 1)) else s.

(** Line 119: the option character the call reads. *)
Definition optchar_at (p : cptr) (s : state) : ascii :=
  match optcursor (pick_cursor p s) with
  | Some c => deref c
  | None => zero
  end.

(** Lines 116-180 of [getopt]; [p] is [argv[optind]], an element that starts
    with '-' and is neither "-" nor "--". *)
Definition short_option (argc : Z) (optstring : string) (p : cptr) (s : state)
  : res (Z * state) :=
  let s := pick_cursor p s in
  match optcursor s with
  | None => Fault
  | Some c =>
      let optchar := deref c in
      let s := set_optopt s (int_of_char optchar) in
      match strchr optstring optchar with
      | Some d =>
          if Ascii.eqb (char_at optstring (d + 1)) ":" then
            let c1 := ptr_add c 1 in
            let s := set_optarg (set_optcursor s (Some c1)) (Some c1) in
            if Ascii.eqb (deref c1) zero then
              if negb (Ascii.eqb (char_at optstring (d + 2)) ":") then
                let s := set_optind s (optind s + 1) in
                if optind s <? argc then
                  a <- arg_at s (optind s) ;;
                  advance (int_of_char optchar)
                          (set_optcursor (set_optarg s a) None)
                else
                  let s := set_optarg s None in
                  s <- (if negb (opterr s =? 0) then
                          n <- prog_name s ;;
                          Ret (emit s (n ++ ": option requires an argument -- '"
                                         ++ String optchar "'" ++ newline)%string)
                        else Ret s) ;;
                  advance (if Ascii.eqb (char_at optstring 0) ":"
                           then int_of_char ":" else int_of_char "?")
                          (set_optcursor s None)
              else
                advance (int_of_char optchar)
                        (set_optcursor (set_optarg s None) None)
            else
              advance (int_of_char optchar) (set_optcursor s None)
          else
            advance (int_of_char optchar) s
      | None =>
          s <- (if negb (opterr s =? 0) then
                  n <- prog_name s ;;
                  Ret (emit s (n ++ ": invalid option -- '"
                                 ++ String optchar "'" ++ newline)%string)
                else Ret s) ;;
          advance (int_of_char "?") s
      end
  end.

(** Lines 99-180 of [getopt], after the permutation block; [p] is
    [argv[optind]]. *)
Definition getopt_at (fuel : nat) (argc : Z) (optstring : string) (p : cptr)
    (s : state) : res (Z * state) :=
  if String.eqb (load p) "-" then no_more_optchars s
  else if String.eqb (load p) "--" then
    let s := set_optind s (optind s + 1) in
    s <- (if negb (is_null (first s))
          then rotate_to_anchor fuel argc s
          else Ret s) ;;
    no_more_optchars s
  else short_option argc optstring p s.

(** [int getopt(int argc, const char** argv, const char* optstring)],
    lines 61-186. *)
Definition getopt (fuel : nat) (argc : Z) (optstring : string) (s : state)
  : res (Z * state) :=
  let s := enter s in
  if argc <=? optind s then no_more_optchars s
  else
    a <- arg_at s (optind s) ;;
    match a with
    | None => no_more_optchars s
    | Some p =>
        f <- permute fuel argc p s ;;
        match f with
        | NoMore s => no_more_optchars s
        | Go s =>
            a <- arg_at s (optind s) ;;
            match a with
            | None => Fault
            | Some p => getopt_at fuel argc optstring p s
            end
        end
    end.

(** The loop of lines 241-261 over the descriptor table: [i] is the index of
    the descriptor under [o], [m] and [n] are [match] (as an index into the
    table) and [num_matches]. *)
Fixpoint find_match (os : list long_option) (i : nat) (cur : string)
    (len : nat) (m : option nat) (n : Z) : option nat * Z :=
  match os with
  | [] => (m, n)
  | o :: rest =>
      let option_length := strlen (name o) in
      if Nat.eqb option_length len
         && strncmp_eq (name o) cur option_length
      then (Some i, 1)
      else if strncmp_eq (name o) cur len then
        if Nat.eqb (strlen (name o)) len then (Some i, 1)
        else find_match rest (S i) cur len (Some i) (n + 1)
      else find_match rest (S i) cur len m n
  end.

(** Lines 278-299: the value of a matched long option. *)
Definition long_value (argc : Z) (d : long_option) (p : cptr) (retval : Z)
    (s : state) : res (Z * state) :=
  if negb (arg_mode_eqb (has_arg d) no_argument) then
    let s := set_optarg s (match strchr (load p) "=" with
                           | Some k => Some (ptr_add p (k + 1))
                           | None => None
                           end) in
    if arg_mode_eqb (has_arg d) required_argument then
      s <- (if is_null (optarg s) then
              let s := set_optind s (optind s + 1) in
              if optind s <? argc then
                a <- arg_at s (optind s) ;;
                Ret (set_optarg s a)
              else Ret s
            else Ret s) ;;
      if is_null (optarg s) then Ret (int_of_char ":", s) else Ret (retval, s)
    else Ret (retval, s)
  else
    match strchr (load p) "=" with
    | Some _ => Ret (int_of_char "?", s)
    | None => Ret (retval, s)
    end.

(** Lines 263-299: the single match [longopts[i]] is resolved. *)
Definition resolve_match (argc : Z) (longopts : list long_option)
    (longindex : option nat) (i : nat) (p : cptr) (s : state)
  : res (Z * state) :=
  match nth_error longopts i with
  | None => Fault
  | Some d =>
      let s := set_ints s (store_opt longindex (Z.of_nat i) (ints s)) in
      let s := set_ints s (store_opt (flag d) (val d) (ints s)) in
      let retval := match flag d with Some _ => 0 | None => val d end in
      long_value argc d p retval s
  end.

(** Lines 300-310: no match, or more than one. *)
Definition report_no_match (num_matches : Z) (p : cptr) (s : state)
  : res (Z * state) :=
  s <- (if negb (opterr s =? 0) then
          n <- prog_name s ;;
          if num_matches =? 0 then
            Ret (emit s (n ++ ": unrecognized option -- '"
                           ++ load p ++ "'" ++ newline)%string)
          else
            Ret (emit s (n ++ ": option '" ++ load p
                           ++ "' is ambiguous" ++ newline)%string)
        else Ret s) ;;
  Ret (int_of_char "?", s).

(** Lines 238-313 of [getopt_long]; [p] is [argv[optind]], an element of at
    least three characters that starts with "--". *)
Definition long_option_at (argc : Z) (longopts : list long_option)
    (longindex : option nat) (p : cptr) (s : state) : res (Z * state) :=
  let current_argument := sdrop 2 (load p) in
  let argument_name_length := strcspn current_argument "=" in
  let '(m, num_matches) :=
    find_match longopts O current_argument argument_name_length None 0 in
  r <- (if num_matches =? 1 then
          match m with
          | None => Fault
          | Some i => resolve_match argc longopts longindex i p s
          end
        else report_no_match num_matches p s) ;;
  Ret (fst r, set_optind (snd r) (optind (snd r) + 1)).

(** Lines 235-313 of [getopt_long], after the permutation block. *)
Definition getopt_long_at (fuel : nat) (argc : Z) (optstring : string)
    (longopts : list long_option) (longindex : option nat) (p : cptr)
    (s : state) : res (Z * state) :=
  if Nat.ltb (strlen (load p)) 3 || negb (strncmp_eq (load p) "--" 2)
  then getopt fuel argc optstring s
  else long_option_at argc longopts longindex p s.

(** [int getopt_long(int argc, const char** argv, const char* optstring,
    const struct option* longopts, int* longindex)], lines 192-318.  The
    table [longopts] is the list of the descriptors before the terminating
    entry whose name is NULL. *)
Definition getopt_long (fuel : nat) (argc : Z) (optstring : string)
    (longopts : list long_option) (longindex : option nat) (s : state)
  : res (Z * state) :=
  let s := enter s in
  if argc <=? optind s then Ret (-1, s)
  else
    a <- arg_at s (optind s) ;;
    match a with
    | None => no_more_optchars_long s
    | Some p =>
        f <- permute fuel argc p s ;;
        match f with
        | NoMore s => no_more_optchars_long s
        | Go s =>
            a <- arg_at s (optind s) ;;
            match a with
            | None => Fault
            | Some p =>
                getopt_long_at fuel argc optstring longopts longindex p s
            end
        end
    end.

End Model.

(** ** Sample processes *)

(** A memory holding the given strings at the addresses 0, 1, 2, ... *)
Definition mem_of (l : list string) (a : nat) : string := nth a l EmptyString.

(** Pointers to the starts of the given string objects. *)
Definition args (l : list nat) : list (option cptr) :=
  map (fun b => Some (mkptr b 0)) l.

(** The texts an [argv] array holds, in order. *)
Definition texts (mem : nat -> string) (a : list (option cptr))
  : list (option string) :=
  map (fun e => match e with
                | Some p => Some (load mem p)
                | None => None
                end) a.

(** What a call returned, for statements about a run of several calls. *)
Definition outcome_value (r : res (Z * state)) : Z :=
  match r with
  | Ret (v, _) => v
  | _ => 0
  end.

Definition outcome_state (r : res (Z * state)) (otherwise : state) : state :=
  match r with
  | Ret (_, s) => s
  | _ => otherwise
  end.

(** [prog -o val] *)
Definition mem_value : nat -> string := mem_of ["prog"; "-o"; "val"]%string.

(** [prog -x] *)
Definition mem_unknown : nat -> string := mem_of ["prog"; "-x"]%string.

(** [prog -o] *)
Definition mem_missing : nat -> string := mem_of ["prog"; "-o"]%string.

(** [prog a -o], and the operands [x], [y] of a later command line. *)
Definition mem_trailing : nat -> string :=
  mem_of ["prog"; "a"; "-o"; "x"; "y"]%string.

(** [prog x y z]; the address 4 holds an option for mixed command lines. *)
Definition mem_operands : nat -> string :=
  mem_of ["prog"; "x"; "y"; "z"; "-a"]%string.

(** Elements for the long-option resolver. *)
Definition mem_long : nat -> string :=
  mem_of ["prog"; "--he"; "--hel"; "--help=x"; "--=x"; "--size"]%string.

Definition help_hex : list long_option :=
  [mkopt "help" no_argument None 104; mkopt "hex" no_argument None 120].

(** A table of two descriptors, the first with the empty name. *)
Definition unnamed_first : list long_option :=
  [mkopt EmptyString required_argument None 101;
   mkopt "b" no_argument None 98].

(** A descriptor with a flag location and a required value. *)
Definition size_flag : list long_option :=
  [mkopt "size" required_argument (Some 0%nat) 7].

(** [argv[1]] and [argv[3]] are the same pointer. *)
Definition aliased : state := initial (args [0; 1; 2; 1]%nat).

(** [prog x -a y], and the state after one call of [getopt] with the
    specification "a". *)
Definition mixed : state := initial (args [0; 1; 4; 2]%nat).

Definition mixed_after : state :=
  outcome_state (getopt mem_operands 4 4 "a" mixed) mixed.

(** ** Vocabulary of the statements *)

(** What a call may do to the array when the scan index is [k]: the elements
    are rearranged, their number stays, and the first [k] stay in place. *)
Definition rearranged (k : nat) (a a' : list (option cptr)) : Prop :=
  Permutation a a' /\ List.length a' = List.length a
  /\ firstn k a' = firstn k a.

Definition flow_state (f : flow) : state :=
  match f with
  | NoMore s => s
  | Go s => s
  end.

(** The call on [s] gets past the index checks and the permutation block
    (lines 65-97, or 202-233 in [getopt_long]) and arrives, in state [s1],
    at the element [p] under the scan index. *)
Definition reaches (mem : nat -> string) (fuel : nat) (argc : Z)
    (s s1 : state) (p : cptr) : Prop :=
  optind (enter s) < argc /\
  exists p0 : cptr,
    arg_at (enter s) (optind (enter s)) = Ret (Some p0) /\
    permute mem fuel argc p0 (enter s) = Ret (Go s1) /\
    arg_at s1 (optind s1) = Ret (Some p).

(** The element is one the long-option resolver takes: line 235. *)
Definition long_token (tok : string) : Prop :=
  (3 <= strlen tok)%nat /\ strncmp_eq tok "--" 2 = true.

(** *** The matching rule in the words of the specification *)

(** The portion of the text before the first '='. *)
Fixpoint before_eq (s : string) : string :=
  match s with
  | EmptyString => EmptyString
  | String x t => if Ascii.eqb x "=" then EmptyString else String x (before_eq t)
  end.

(** The candidate name of an element: what follows the two-character prefix,
    up to the first '='. *)
Definition candidate (tok : string) : string := before_eq (sdrop 2 tok).

Inductive resolution : Type :=
| Selected (i : nat)
| Ambiguous
| Unrecognized.

(** The first descriptor, counting from [i], whose name is the candidate. *)
Fixpoint exact_index (os : list long_option) (i : nat) (cand : string)
  : option nat :=
  match os with
  | [] => None
  | o :: rest =>
      if String.eqb (name o) cand then Some i
      else exact_index rest (S i) cand
  end.

(** The descriptors, counting from [i], whose name starts with the
    candidate. *)
Fixpoint prefix_indices (os : list long_option) (i : nat) (cand : string)
  : list nat :=
  match os with
  | [] => []
  | o :: rest =>
      if String.prefix cand (name o)
      then i :: prefix_indices rest (S i) cand
      else prefix_indices rest (S i) cand
  end.

(** Exact match first; otherwise the single prefix match, if there is exactly
    one. *)
Definition spec_resolve (os : list long_option) (cand : string) : resolution :=
  match exact_index os 0 cand with
  | Some i => Selected i
  | None =>
      match prefix_indices os 0 cand with
      | [] => Unrecognized
      | [i] => Selected i
      | _ :: _ :: _ => Ambiguous
      end
  end.

(** The descriptor the loop leaves in [match] when no name is exactly the
    candidate: the last prefix match, or what [match] was. *)
Definition last_match (l : list nat) (m : option nat) : option nat :=
  fold_left (fun _ j => Some j) l m.

(** *** Vocabulary for runs of several calls *)

(** [rotate] applied [k] times to the same window. *)
Fixpoint rotate_times (k : nat) (a : list (option cptr)) (start argc : Z)
  : res (list (option cptr)) :=
  match k with
  | O => Ret a
  | S k' => a' <- rotate a start argc ;; rotate_times k' a' start argc
  end.

(** [n] successive calls of [getopt] on the same array with the same
    specification, as the caller's loop makes them: the values returned, in
    order, and the state after the last call. *)
Fixpoint getopt_run (mem : nat -> string) (n fuel : nat) (argc : Z)
    (optstring : string) (s : state) : res (list Z * state) :=
  match n with
  | O => Ret ([], s)
  | S k =>
      r <- getopt mem fuel argc optstring s ;;
      rs <- getopt_run mem k fuel argc optstring (snd r) ;;
      Ret (fst r :: fst rs, snd rs)
  end.

(** The element starts with '-'. *)
Definition starts_with_dash (mem : nat -> string) (p : cptr) : bool :=
  Ascii.eqb (deref mem p) "-".

(** The specification declares [c] as an option without value: [c] occurs in
    it and its first occurrence is not followed by ':'. *)
Definition plain_flag (optstring : string) (c : ascii) : bool :=
  match strchr optstring c with
  | Some d =>
      negb (Ascii.eqb c zero)
      && negb (Ascii.eqb (char_at optstring (d + 1)) ":")
  | None => false
  end.

(** Every character of the text is declared as an option without value. *)
Fixpoint plain_flags (optstring : string) (cs : string) : bool :=
  match cs with
  | EmptyString => true
  | String c t => plain_flag optstring c && plain_flags optstring t
  end.

(** The element is "-c" for a single option character [c] without value,
    other than '-'. *)
Definition flag_element (mem : nat -> string) (optstring : string) (p : cptr)
  : bool :=
  match load mem p with
  | String d (String c EmptyString) =>
      Ascii.eqb d "-" && negb (Ascii.eqb c "-") && plain_flag optstring c
  | _ => false
  end.

(** The option character of an element "-c". *)
Definition flag_char (mem : nat -> string) (p : cptr) : Z :=
  int_of_char (char_at (load mem p) 1).

(** *** More sample processes *)

(** [prog x -- y], with an option at the address 4. *)
Definition mem_marker : nat -> string :=
  mem_of ["prog"; "x"; "--"; "y"; "-a"]%string.

(** The state in which the call on [prog x -- y] arrives at "--": the
    operand [x] has been moved to the end and is the anchor. *)
Definition marker_reached : state :=
  set_argv (set_first (enter (initial (args [0; 1; 2; 3]%nat)))
                      (Some (mkptr 1 0)))
           (args [0; 2; 3; 1]%nat).

(** [prog -oval] *)
Definition mem_attached : nat -> string := mem_of ["prog"; "-oval"]%string.

(** [prog -abc] *)
Definition mem_cluster : nat -> string := mem_of ["prog"; "-abc"]%string.

(** [prog x -a y -b z] *)
Definition mem_pass : nat -> string :=
  mem_of ["prog"; "x"; "-a"; "y"; "-b"; "z"]%string.

(** Elements for long options with values. *)
Definition mem_values : nat -> string :=
  mem_of ["prog"; "--size=3"; "--size"; "4"; "--color"]%string.

(** A descriptor with an optional value. *)
Definition color_option : list long_option :=
  [mkopt "color" optional_argument None 99].


(** [prog --size=3] after the call of [getopt_long]. *)
Definition sized_after : state :=
  outcome_state
    (getopt_long mem_values 1 2 EmptyString size_flag None
       (initial (args [0; 1]%nat)))
    (initial []).

(** [prog x y] with an anchor that points to no element of the array. *)
Definition foreign_anchor : state :=
  set_first (initial (args [0; 1; 2]%nat)) (Some (mkptr 9 0)).

(** ** Reasoning tools *)

(** Splits on the scrutinee of the outermost [match], [if] or [bind] of a
    hypothesis that says a computation returned. *)
Ltac split_ret H :=
  match type of H with
  | Ret _ = Ret _ => inversion H; subst; clear H
  | Fault = Ret _ => discriminate H
  | Timeout = Ret _ => discriminate H
  | bind ?m _ = Ret _ =>
      let E := fresh "E" in
      destruct m eqn:E; simpl in H; [ | discriminate H | discriminate H ]
  | context [match ?x with _ => _ end] =>
      let E := fresh "E" in destruct x eqn:E; simpl in H
  end.

(** The same for every hypothesis of that form. *)
Ltac split_rets :=
  repeat match goal with
         | H : _ = Ret _ |- _ => split_ret H
         end.

(** Proves [reaches] by evaluation when the element under the scan index,
    [p], starts with '-'. *)
Ltac reach_at p :=
  split; [reflexivity|]; exists p;
  (split; [vm_compute; reflexivity|]);
  (split; vm_compute; reflexivity).

Section Properties.

Variable mem : nat -> string.

(** *** Pointers into strings *)

Lemma char_at_sdrop (n k : nat) (s : string) :
  char_at s (n + k) = char_at (sdrop n s) k.
Proof.
  revert s; induction n as [|n IH]; intros s; simpl.
  - reflexivity.
  - destruct s as [|c t].
    + unfold char_at; simpl. destruct k; reflexivity.
    + unfold char_at in *; simpl. apply IH.
Qed.

Lemma sdrop_sdrop (n k : nat) (s : string) :
  sdrop k (sdrop n s) = sdrop (n + k) s.
Proof.
  revert s; induction n as [|n IH]; intros s; simpl.
  - reflexivity.
  - destruct s as [|c t]; [destruct k; reflexivity | apply IH].
Qed.

Lemma deref_add (p : cptr) (k : nat) :
  deref mem (ptr_add p k) = char_at (load mem p) k.
Proof. unfold deref, load, ptr_add; simpl. apply char_at_sdrop. Qed.

Lemma load_add (p : cptr) (k : nat) :
  load mem (ptr_add p k) = sdrop k (load mem p).
Proof. unfold load, ptr_add; simpl. symmetry; apply sdrop_sdrop. Qed.

Lemma deref_load (p : cptr) : deref mem p = char_at (load mem p) 0.
Proof.
  unfold deref, load. rewrite <- char_at_sdrop. f_equal. lia.
Qed.

Lemma cptr_eqb_eq (p q : cptr) : cptr_eqb p q = true <-> p = q.
Proof.
  destruct p as [b o], q as [b' o']; unfold cptr_eqb; simpl.
  rewrite andb_true_iff, !Nat.eqb_eq. split.
  - intros [-> ->]; reflexivity.
  - intros H; inversion H; auto.
Qed.

Lemma cptr_eqb_refl (p : cptr) : cptr_eqb p p = true.
Proof. apply cptr_eqb_eq; reflexivity. Qed.

(** *** The array is only ever permuted *)

Lemma rearranged_refl (k : nat) (a : list (option cptr)) : rearranged k a a.
Proof. repeat split; auto. Qed.

Lemma rearranged_trans (k : nat) (a b c : list (option cptr)) :
  rearranged k a b -> rearranged k b c -> rearranged k a c.
Proof.
  intros (P1 & L1 & F1) (P2 & L2 & F2). repeat split.
  - eapply Permutation_trans; eauto.
  - congruence.
  - congruence.
Qed.

Lemma rearranged_le (j k : nat) (a b : list (option cptr)) :
  (j <= k)%nat -> rearranged k a b -> rearranged j a b.
Proof.
  intros Hjk (P & L & F). repeat split; auto.
  replace j with (Nat.min j k) by lia.
  rewrite <- !firstn_firstn. now rewrite F.
Qed.

Lemma rotate_rearranged (a a' : list (option cptr)) (start argc : Z) :
  rotate a start argc = Ret a' -> rearranged (Z.to_nat start) a a'.
Proof.
  unfold rotate. intros H.
  destruct (argc <=? 1); [inversion H; apply rearranged_refl|].
  destruct ((0 <=? start) && (start + argc <=? Z.of_nat (List.length a)));
    [|discriminate].
  destruct (skipn (Z.to_nat start) a) as [|tmp rest] eqn:E; inversion H; clear H.
  assert (Ha : a = firstn (Z.to_nat start) a ++ tmp :: rest).
  { rewrite <- E. symmetry. apply firstn_skipn. }
  set (pre := firstn (Z.to_nat start) a) in *.
  set (m := Z.to_nat (argc - 1)).
  assert (Hr : rest = firstn m rest ++ skipn m rest)
    by (symmetry; apply firstn_skipn).
  assert (Hlen : List.length pre = Z.to_nat start \/ rest = [] /\ False).
  { left. unfold pre. apply firstn_length_le.
    assert (Z.to_nat start < List.length a)%nat; [|lia].
    destruct (Nat.lt_ge_cases (Z.to_nat start) (List.length a)); auto.
    rewrite skipn_all2 in E by lia. discriminate. }
  destruct Hlen as [Hlen|[_ []]].
  repeat split.
  - rewrite Ha at 1. apply Permutation_app_head.
    rewrite Hr at 1. apply Permutation_middle.
  - transitivity (List.length (pre ++ tmp :: rest)); [|now rewrite <- Ha].
    assert (List.length rest = List.length (firstn m rest ++ skipn m rest))
      by (now rewrite <- Hr).
    repeat (rewrite length_app in * || simpl in * ). lia.
  - rewrite <- Hlen. rewrite firstn_app, Nat.sub_diag, firstn_O, app_nil_r.
    rewrite firstn_all, Hlen. reflexivity.
Qed.

Lemma rotate_to_option_frame (fuel : nat) (argc : Z) (s s' : state) :
  rotate_to_option mem fuel argc s = Ret s' ->
  s' = set_argv s (argv s')
  /\ rearranged (Z.to_nat (optind s)) (argv s) (argv s').
Proof.
  revert s; induction fuel as [|k IH]; intros s H; simpl in H.
  - discriminate.
  - repeat split_ret H.
    + destruct (IH _ H) as [Hs Hr]; simpl in *. split.
      * rewrite Hs at 1. reflexivity.
      * eapply rearranged_trans; [eapply rotate_rearranged; eauto | exact Hr].
    + simpl. split; [reflexivity|]. eapply rotate_rearranged; eauto.
Qed.

Lemma rotate_to_anchor_frame (fuel : nat) (argc : Z) (s s' : state) :
  rotate_to_anchor fuel argc s = Ret s' ->
  s' = set_argv s (argv s')
  /\ rearranged (Z.to_nat (optind s)) (argv s) (argv s').
Proof.
  revert s; induction fuel as [|k IH]; intros s H; simpl in H.
  - discriminate.
  - repeat split_ret H.
    + destruct (IH _ H) as [Hs Hr]; simpl in *. split.
      * rewrite Hs at 1. reflexivity.
      * eapply rearranged_trans; [eapply rotate_rearranged; eauto | exact Hr].
    + simpl. split; [reflexivity|]. eapply rotate_rearranged; eauto.
Qed.

Lemma permute_frame (fuel : nat) (argc : Z) (p : cptr) (s : state) (f : flow) :
  permute mem fuel argc p s = Ret f ->
  flow_state f = set_first (set_argv s (argv (flow_state f))) (first (flow_state f))
  /\ rearranged (Z.to_nat (optind s)) (argv s) (argv (flow_state f)).
Proof.
  unfold permute. intros H.
  destruct (negb (Ascii.eqb (deref mem p) "-")).
  - destruct (argc - optind s <=? 1).
    + inversion H; subst; simpl. split; [destruct s; reflexivity|apply rearranged_refl].
    + match type of H with bind ?m _ = _ =>
        destruct m as [s0| |] eqn:E; simpl in H; try discriminate end.
      apply rotate_to_option_frame in E. destruct E as [Hs Hr].
      assert (flow_state f = s0) by (repeat split_ret H; reflexivity).
      subst s0. split.
      * destruct (is_null (first s)); rewrite Hs; reflexivity.
      * destruct (is_null (first s)); exact Hr.
  - inversion H; subst; simpl. split; [destruct s; reflexivity|apply rearranged_refl].
Qed.

Lemma enter_optind (s : state) : optind (enter s) = Z.max 1 (optind s).
Proof.
  unfold enter; simpl. destruct (optind s <=? 1) eqn:E; simpl.
  - apply Z.leb_le in E. lia.
  - apply Z.leb_gt in E. lia.
Qed.

Lemma enter_fields (s : state) :
  argv (enter s) = argv s /\ optarg (enter s) = None /\ optopt (enter s) = 0
  /\ opterr (enter s) = 0 /\ optcursor (enter s) = optcursor s
  /\ first (enter s) = first s /\ ints (enter s) = ints s
  /\ stderr (enter s) = stderr s.
Proof. unfold enter; simpl. destruct (optind s <=? 1); simpl; tauto. Qed.

Lemma advance_argv (c : Z) (s : state) (r : Z) (s' : state) :
  advance mem c s = Ret (r, s') -> argv s' = argv s.
Proof.
  unfold advance. intros H. repeat split_ret H; reflexivity.
Qed.

Lemma short_option_argv (argc : Z) (optstring : string) (p : cptr)
    (s : state) (r : Z) (s' : state) :
  short_option mem argc optstring p s = Ret (r, s') -> argv s' = argv s.
Proof.
  unfold short_option, pick_cursor, prog_name. intros H.
  split_rets;
    repeat match goal with
           | A : advance _ _ _ = Ret _ |- _ => apply advance_argv in A; simpl in A
           end; simpl in *; congruence.
Qed.

Lemma long_value_argv (argc : Z) (d : long_option) (p : cptr) (v : Z)
    (s : state) (r : Z) (s' : state) :
  long_value mem argc d p v s = Ret (r, s') -> argv s' = argv s.
Proof.
  unfold long_value. intros H. split_rets; reflexivity.
Qed.

Lemma long_option_at_argv (argc : Z) (longopts : list long_option)
    (longindex : option nat) (p : cptr) (s : state) (r : Z) (s' : state) :
  long_option_at mem argc longopts longindex p s = Ret (r, s') ->
  argv s' = argv s.
Proof.
  unfold long_option_at, resolve_match, report_no_match, prog_name. intros H.
  split_rets;
    repeat match goal with
           | a : (Z * state)%type |- _ => destruct a
           | X : long_value _ _ _ _ _ _ = Ret _ |- _ =>
               apply long_value_argv in X; simpl in X
           end; simpl in *; congruence.
Qed.

Lemma getopt_at_rearranged (fuel : nat) (argc : Z) (optstring : string)
    (p : cptr) (s : state) (r : Z) (s' : state) :
  getopt_at mem fuel argc optstring p s = Ret (r, s') ->
  rearranged (Z.to_nat (optind s)) (argv s) (argv s').
Proof.
  unfold getopt_at, no_more_optchars. intros H.
  destruct (String.eqb (load mem p) "-").
  { inversion H; subst; simpl. apply rearranged_refl. }
  destruct (String.eqb (load mem p) "--").
  - destruct (negb (is_null (first (set_optind s (optind s + 1))))); simpl in H.
    + destruct (rotate_to_anchor fuel argc (set_optind s (optind s + 1)))
        as [s2| |] eqn:E; simpl in H; try discriminate.
      inversion H; subst; simpl.
      apply rotate_to_anchor_frame in E. destruct E as [_ Hr]. simpl in Hr.
      eapply rearranged_le; [|exact Hr]. lia.
    + inversion H; subst; simpl. apply rearranged_refl.
  - apply short_option_argv in H. rewrite H. apply rearranged_refl.
Qed.

Lemma getopt_rearranged (fuel : nat) (argc : Z) (optstring : string)
    (s : state) (r : Z) (s' : state) :
  getopt mem fuel argc optstring s = Ret (r, s') ->
  rearranged (Z.to_nat (optind (enter s))) (argv s) (argv s').
Proof.
  unfold getopt, no_more_optchars. intros H.
  destruct (enter_fields s) as [Ha _]. rewrite <- Ha.
  destruct (argc <=? optind (enter s)).
  { inversion H; subst; simpl. apply rearranged_refl. }
  destruct (arg_at (enter s) (optind (enter s))) as [[p|]| |] eqn:E0;
    simpl in H; try discriminate.
  2:{ inversion H; subst; simpl. apply rearranged_refl. }
  destruct (permute mem fuel argc p (enter s)) as [f| |] eqn:E1;
    simpl in H; try discriminate.
  apply permute_frame in E1. destruct E1 as [Hs Hr].
  destruct f as [s1|s1]; simpl in *.
  - inversion H; subst; simpl. exact Hr.
  - destruct (arg_at s1 (optind s1)) as [[q|]| |] eqn:E2;
      simpl in H; try discriminate.
    apply getopt_at_rearranged in H.
    eapply rearranged_trans; [exact Hr|].
    replace (optind (enter s)) with (optind s1); [exact H|].
    rewrite Hs. reflexivity.
Qed.

Lemma getopt_long_rearranged (fuel : nat) (argc : Z) (optstring : string)
    (longopts : list long_option) (longindex : option nat)
    (s : state) (r : Z) (s' : state) :
  getopt_long mem fuel argc optstring longopts longindex s = Ret (r, s') ->
  rearranged (Z.to_nat (optind (enter s))) (argv s) (argv s').
Proof.
  unfold getopt_long, no_more_optchars_long. intros H.
  destruct (enter_fields s) as [Ha _]. rewrite <- Ha.
  destruct (argc <=? optind (enter s)).
  { inversion H; subst; simpl. apply rearranged_refl. }
  destruct (arg_at (enter s) (optind (enter s))) as [[p|]| |] eqn:E0;
    simpl in H; try discriminate.
  2:{ inversion H; subst; simpl. apply rearranged_refl. }
  destruct (permute mem fuel argc p (enter s)) as [f| |] eqn:E1;
    simpl in H; try discriminate.
  apply permute_frame in E1. destruct E1 as [Hs Hr].
  destruct f as [s1|s1]; simpl in *.
  - inversion H; subst; simpl. exact Hr.
  - destruct (arg_at s1 (optind s1)) as [[q|]| |] eqn:E2;
      simpl in H; try discriminate.
    assert (Hi : optind s1 = optind (enter s)) by (rewrite Hs; reflexivity).
    eapply rearranged_trans; [exact Hr|]. rewrite <- Hi.
    unfold getopt_long_at in H.
    destruct (Nat.ltb (strlen (load mem q)) 3
              || negb (strncmp_eq (load mem q) "--" 2)).
    + apply getopt_rearranged in H.
      eapply rearranged_le; [|exact H]. rewrite enter_optind. lia.
    + apply long_option_at_argv in H. rewrite H. apply rearranged_refl.
Qed.

Lemma texts_permuted (a a' : list (option cptr)) :
  Permutation a a' -> Permutation (texts mem a) (texts mem a').
Proof. unfold texts. apply Permutation_map. Qed.

Lemma firstn_nth_error {A : Type} (k i : nat) (l l' : list A) :
  firstn k l' = firstn k l -> (i < k)%nat -> nth_error l' i = nth_error l i.
Proof.
  revert i l l'. induction k as [|k IH]; intros i l l' H Hi; [lia|].
  destruct l as [|x l], l' as [|y l']; simpl in H; try discriminate; auto.
  inversion H; subst. destruct i; simpl; auto. apply (IH i); auto. lia.
Qed.

(** *** The calls only rearrange the array *)

(** C8: a call of [getopt] or of [getopt_long] that returns leaves in [argv]
    a permutation of what it found there: the number of elements is the same,
    the elements before the scan index (the index the call starts from, 1 for
    a new pass) are where they were, and the texts the elements hold are the
    same texts, because the code has no write access to them. *)
Theorem calls_permute_argv (fuel : nat) (argc : Z) (optstring : string)
    (longopts : list long_option) (longindex : option nat)
    (s : state) (r : Z) (s' : state) :
  getopt mem fuel argc optstring s = Ret (r, s')
  \/ getopt_long mem fuel argc optstring longopts longindex s = Ret (r, s') ->
  Permutation (argv s) (argv s')
  /\ List.length (argv s') = List.length (argv s)
  /\ (forall i : nat, Z.of_nat i < Z.max 1 (optind s) ->
        nth_error (argv s') i = nth_error (argv s) i)
  /\ Permutation (texts mem (argv s)) (texts mem (argv s')).
Proof.
  intros H.
  assert (R : rearranged (Z.to_nat (optind (enter s))) (argv s) (argv s')).
  { destruct H as [H|H].
    - eapply getopt_rearranged; eauto.
    - eapply getopt_long_rearranged; eauto. }
  destruct R as (P & L & F). rewrite enter_optind in F.
  repeat split; auto.
  - intros i Hi. eapply firstn_nth_error; [exact F|]. lia.
  - apply texts_permuted; exact P.
Qed.

(** *** Arriving at the element under the scan index *)

Lemma getopt_reaches (fuel : nat) (argc : Z) (optstring : string)
    (s s1 : state) (p : cptr) :
  reaches mem fuel argc s s1 p ->
  getopt mem fuel argc optstring s = getopt_at mem fuel argc optstring p s1.
Proof.
  intros (Hlt & p0 & Ha & Hp & Hq). unfold getopt.
  assert (E : (argc <=? optind (enter s)) = false) by (apply Z.leb_gt; lia).
  rewrite E, Ha; simpl. rewrite Hp; simpl. rewrite Hq; reflexivity.
Qed.

Lemma getopt_long_reaches (fuel : nat) (argc : Z) (optstring : string)
    (longopts : list long_option) (longindex : option nat)
    (s s1 : state) (p : cptr) :
  reaches mem fuel argc s s1 p ->
  getopt_long mem fuel argc optstring longopts longindex s
  = getopt_long_at mem fuel argc optstring longopts longindex p s1.
Proof.
  intros (Hlt & p0 & Ha & Hp & Hq). unfold getopt_long.
  assert (E : (argc <=? optind (enter s)) = false) by (apply Z.leb_gt; lia).
  rewrite E, Ha; simpl. rewrite Hp; simpl. rewrite Hq; reflexivity.
Qed.

Lemma reaches_fields (fuel : nat) (argc : Z) (s s1 : state) (p : cptr) :
  reaches mem fuel argc s s1 p ->
  optarg s1 = None /\ optopt s1 = 0 /\ opterr s1 = 0
  /\ optind s1 = Z.max 1 (optind s) /\ optind s1 < argc
  /\ optcursor s1 = optcursor s /\ ints s1 = ints s /\ stderr s1 = stderr s
  /\ rearranged (Z.to_nat (optind s1)) (argv s) (argv s1).
Proof.
  intros (Hlt & p0 & Ha & Hp & Hq).
  apply permute_frame in Hp. simpl in Hp. destruct Hp as [Hs Hr].
  destruct (enter_fields s) as (F1 & F2 & F3 & F4 & F5 & F6 & F7 & F8).
  assert (Hi : optind s1 = optind (enter s)) by (rewrite Hs; reflexivity).
  rewrite Hi. rewrite F1 in Hr.
  repeat split; try (rewrite Hs; simpl; assumption); try apply Hr.
  - apply enter_optind.
  - exact Hlt.
Qed.

(** Without operands in the way, the call arrives at [argv[optind]] as it
    is. *)
Lemma reaches_option (fuel : nat) (argc : Z) (s : state) (p : cptr) :
  optind (enter s) < argc ->
  arg_at (enter s) (optind (enter s)) = Ret (Some p) ->
  char_at (load mem p) 0 = "-"%char ->
  reaches mem fuel argc s (enter s) p.
Proof.
  intros Hlt Ha Hd. split; [exact Hlt|]. exists p. repeat split; auto.
  unfold permute. rewrite deref_load, Hd. reflexivity.
Qed.

Lemma advance_frame (c : Z) (s : state) (r : Z) (s' : state) :
  advance mem c s = Ret (r, s') ->
  r = c /\ s' = set_optind (set_optcursor s (optcursor s')) (optind s').
Proof.
  unfold advance. intros H. split_rets; split; try reflexivity;
    destruct s; reflexivity.
Qed.

(** [getopt] sets [opterr] to 0 before it looks at anything, so none of its
    diagnostics is ever written. *)
Lemma short_option_stderr (argc : Z) (optstring : string) (p : cptr)
    (s : state) (r : Z) (s' : state) :
  opterr s = 0 ->
  short_option mem argc optstring p s = Ret (r, s') ->
  stderr s' = stderr s /\ 0 <= r.
Proof.
  unfold short_option, pick_cursor. intros Hz H.
  assert (Hpos : forall c, 0 <= int_of_char c)
    by (intros c; unfold int_of_char; lia).
  destruct (cursor_idle mem s); simpl in H; rewrite ?Hz in H; simpl in H;
    split_rets;
    repeat match goal with
           | A : advance _ _ _ = Ret _ |- _ =>
               apply advance_frame in A; simpl in A; destruct A as [-> ->]
           end; simpl; auto.
Qed.

Lemma getopt_at_stderr (fuel : nat) (argc : Z) (optstring : string)
    (p : cptr) (s : state) (r : Z) (s' : state) :
  opterr s = 0 ->
  getopt_at mem fuel argc optstring p s = Ret (r, s') ->
  stderr s' = stderr s
  /\ (r = -1 -> optcursor s' = None /\ first s' = None).
Proof.
  unfold getopt_at, no_more_optchars. intros Hz H.
  destruct (String.eqb (load mem p) "-").
  { inversion H; subst; simpl. auto. }
  destruct (String.eqb (load mem p) "--").
  - destruct (negb (is_null (first (set_optind s (optind s + 1))))); simpl in H.
    + destruct (rotate_to_anchor fuel argc (set_optind s (optind s + 1)))
        as [s2| |] eqn:E; simpl in H; try discriminate.
      inversion H; subst; simpl.
      apply rotate_to_anchor_frame in E. destruct E as [-> _]. simpl. auto.
    + inversion H; subst; simpl. auto.
  - apply short_option_stderr in H; [|exact Hz]. destruct H as [H1 H2].
    split; [exact H1|]. intros ->. lia.
Qed.

Lemma getopt_quiet_and_clearing (fuel : nat) (argc : Z) (optstring : string)
    (s : state) (r : Z) (s' : state) :
  getopt mem fuel argc optstring s = Ret (r, s') ->
  stderr s' = stderr s
  /\ (r = -1 -> optcursor s' = None /\ first s' = None).
Proof.
  unfold getopt, no_more_optchars. intros H.
  destruct (enter_fields s) as (F1 & F2 & F3 & F4 & F5 & F6 & F7 & F8).
  rewrite <- F8.
  destruct (argc <=? optind (enter s)).
  { inversion H; subst; simpl. auto. }
  destruct (arg_at (enter s) (optind (enter s))) as [[p|]| |] eqn:E0;
    simpl in H; try discriminate.
  2:{ inversion H; subst; simpl. auto. }
  destruct (permute mem fuel argc p (enter s)) as [f| |] eqn:E1;
    simpl in H; try discriminate.
  apply permute_frame in E1. destruct E1 as [Hs _].
  destruct f as [s1|s1]; simpl in *.
  - inversion H; subst; simpl. rewrite Hs; simpl. auto.
  - destruct (arg_at s1 (optind s1)) as [[q|]| |] eqn:E2;
      simpl in H; try discriminate.
    apply getopt_at_stderr in H.
    + rewrite Hs in H; simpl in H. exact H.
    + rewrite Hs; simpl. exact F4.
Qed.

(** *** The short-option scanner *)

(** C6: when the option character the call reads is declared with a single
    colon (a required value), the cursor is at the last character of its
    element, and there is no element after the scan index, [getopt] returns
    ':' if the specification starts with ':' and '?' otherwise, and [optarg]
    is left NULL. *)
Theorem missing_value_outcome (fuel : nat) (argc : Z) (optstring : string)
    (s s1 : state) (p c : cptr) (d : nat) :
  reaches mem fuel argc s s1 p ->
  load mem p <> "-"%string ->
  load mem p <> "--"%string ->
  optcursor (pick_cursor mem p s1) = Some c ->
  strchr optstring (deref mem c) = Some d ->
  char_at optstring (d + 1) = ":"%char ->
  char_at optstring (d + 2) <> ":"%char ->
  deref mem (ptr_add c 1) = zero ->
  argc <= optind s1 + 1 ->
  exists s' : state,
    getopt mem fuel argc optstring s
    = Ret (if Ascii.eqb (char_at optstring 0) ":"
           then int_of_char ":" else int_of_char "?", s')
    /\ optarg s' = None.
Proof.
  intros Hr Hn1 Hn2 Hc Hd Hreq Hopt Hend Hlast.
  rewrite (getopt_reaches _ _ _ _ _ _ Hr).
  destruct (reaches_fields _ _ _ _ _ Hr) as (_ & _ & Herr & _).
  unfold getopt_at.
  apply String.eqb_neq in Hn1, Hn2. rewrite Hn1, Hn2.
  unfold short_option. rewrite Hc, Hd, Hreq, Hend.
  rewrite Ascii.eqb_refl.
  apply Ascii.eqb_neq in Hopt. rewrite Hopt. simpl.
  assert (E : (optind (pick_cursor mem p s1) + 1 <? argc) = false).
  { apply Z.ltb_ge. unfold pick_cursor.
    destruct (cursor_idle mem s1); simpl; lia. }
  rewrite E.
  assert (E' : opterr (pick_cursor mem p s1) = 0).
  { unfold pick_cursor. destruct (cursor_idle mem s1); simpl; exact Herr. }
  rewrite E'. simpl. eexists. split; reflexivity.
Qed.

(** C5: with the specification "o:" and the array [prog, "-o", "val"]
    scanned from index 1, one call of [getopt] returns 'o', leaves [optarg]
    pointing at the next element (the text "val"), and moves the scan index
    from 1 to 3. *)
Theorem required_value_from_next_element (fuel : nat)
    (a0 : option cptr) (p1 p2 : cptr) (s : state) :
  argv s = [a0; Some p1; Some p2] ->
  optind s = 1 ->
  optcursor s = None ->
  load mem p1 = "-o"%string ->
  load mem p2 = "val"%string ->
  exists s' : state,
    getopt mem fuel 3 "o:" s = Ret (int_of_char "o", s')
    /\ optarg s' = Some p2
    /\ load mem p2 = "val"%string
    /\ optind s' = optind s + 2
    /\ optind s' = 3.
Proof.
  intros Ha Hi Hc H1 H2.
  destruct (enter_fields s) as (F1 & F2 & F3 & F4 & F5 & F6 & F7 & F8).
  assert (Hi' : optind (enter s) = 1) by (rewrite enter_optind; lia).
  assert (Hr : reaches mem fuel 3 s (enter s) p1).
  { apply reaches_option.
    - lia.
    - unfold arg_at. rewrite Hi', F1, Ha. reflexivity.
    - rewrite H1. reflexivity. }
  rewrite (getopt_reaches _ _ _ _ _ _ Hr).
  unfold getopt_at. rewrite H1. simpl.
  unfold short_option, pick_cursor, cursor_idle. rewrite F5, Hc. simpl.
  rewrite !deref_add, !load_add, H1. simpl.
  unfold arg_at. simpl. rewrite Hi', F1, Ha. simpl.
  eexists. repeat split; simpl; try assumption; lia.
Qed.

(** *** The long-option resolver *)

Lemma length_before_eq (cur : string) :
  String.length (before_eq cur) = strcspn cur "=".
Proof.
  induction cur as [|x t IH]; simpl; [reflexivity|].
  destruct (Ascii.eqb x "="); simpl; congruence.
Qed.

Lemma strncmp_prefix (cur nm : string) :
  strncmp_eq nm cur (strcspn cur "=") = String.prefix (before_eq cur) nm.
Proof.
  revert nm; induction cur as [|x t IH]; intros nm; simpl.
  - destruct nm; reflexivity.
  - destruct (Ascii.eqb x "="); simpl.
    + destruct nm; reflexivity.
    + destruct nm as [|y nm']; [reflexivity|]. simpl.
      destruct (ascii_dec x y) as [->|Hne].
      * rewrite Ascii.eqb_refl. apply IH.
      * assert (E : Ascii.eqb y x = false)
          by (apply Ascii.eqb_neq; congruence).
        rewrite E. reflexivity.
Qed.

Lemma prefix_same_length (a b : string) :
  String.length a = String.length b -> String.prefix a b = String.eqb b a.
Proof.
  revert b; induction a as [|x a IH]; intros [|y b] H; simpl in *;
    try reflexivity; try discriminate.
  destruct (ascii_dec x y) as [->|Hne].
  - rewrite Ascii.eqb_refl. apply IH. congruence.
  - assert (E : Ascii.eqb y x = false) by (apply Ascii.eqb_neq; congruence).
    rewrite E. reflexivity.
Qed.

(** The test of lines 244-245 is equality with the candidate name. *)
Lemma exact_test (cur nm : string) :
  Nat.eqb (strlen nm) (strcspn cur "=")
  && strncmp_eq nm cur (strlen nm)
  = String.eqb nm (before_eq cur).
Proof.
  unfold strlen. destruct (Nat.eqb _ _) eqn:E; simpl.
  - apply Nat.eqb_eq in E. rewrite E, strncmp_prefix.
    apply prefix_same_length. rewrite length_before_eq. congruence.
  - symmetry. apply String.eqb_neq. intros ->.
    rewrite length_before_eq, Nat.eqb_refl in E. discriminate.
Qed.

Lemma find_match_spec (os : list long_option) (i : nat) (cur : string)
    (m : option nat) (n : Z) :
  find_match os i cur (strcspn cur "=") m n
  = match exact_index os i (before_eq cur) with
    | Some j => (Some j, 1)
    | None =>
        (last_match (prefix_indices os i (before_eq cur)) m,
         n + Z.of_nat (List.length (prefix_indices os i (before_eq cur))))
    end.
Proof.
  revert i m n; induction os as [|o rest IH]; intros i m n; simpl.
  - f_equal. lia.
  - rewrite exact_test.
    destruct (String.eqb (name o) (before_eq cur)) eqn:E; [reflexivity|].
    rewrite strncmp_prefix.
    destruct (String.prefix (before_eq cur) (name o)) eqn:P.
    + assert (L : Nat.eqb (strlen (name o)) (strcspn cur "=") = false).
      { destruct (Nat.eqb _ _) eqn:L; [|reflexivity].
        apply Nat.eqb_eq in L. unfold strlen in L.
        rewrite prefix_same_length in P
          by (rewrite length_before_eq; congruence).
        congruence. }
      rewrite L, IH.
      destruct (exact_index rest (S i) (before_eq cur)); [reflexivity|].
      simpl. f_equal. lia.
    + rewrite IH. reflexivity.
Qed.

(** The loop of [getopt_long] computes the rule of the specification. *)
Lemma find_match_resolution (os : list long_option) (cur : string) :
  match spec_resolve os (before_eq cur) with
  | Selected i =>
      find_match os 0 cur (strcspn cur "=") None 0 = (Some i, 1)
  | Ambiguous =>
      exists m n, find_match os 0 cur (strcspn cur "=") None 0 = (m, n)
                  /\ 1 < n
  | Unrecognized =>
      find_match os 0 cur (strcspn cur "=") None 0 = (None, 0)
  end.
Proof.
  rewrite find_match_spec. unfold spec_resolve.
  destruct (exact_index os 0 (before_eq cur)); [reflexivity|].
  destruct (prefix_indices os 0 (before_eq cur)) as [|j [|k l]]; simpl.
  - reflexivity.
  - reflexivity.
  - eexists _, _. split; [reflexivity|]. lia.
Qed.

Lemma exact_index_nth (os : list long_option) (i j : nat) (cand : string) :
  exact_index os i cand = Some j ->
  (i <= j)%nat
  /\ exists d, nth_error os (j - i) = Some d /\ name d = cand.
Proof.
  revert i; induction os as [|o rest IH]; intros i H; simpl in H.
  - discriminate.
  - destruct (String.eqb (name o) cand) eqn:E.
    + inversion H; subst. split; [lia|]. rewrite Nat.sub_diag. simpl.
      exists o. split; [reflexivity|]. now apply String.eqb_eq.
    + apply IH in H. destruct H as (Hle & d & Hd & Hn).
      split; [lia|]. exists d. split; [|exact Hn].
      replace (j - i)%nat with (S (j - S i)) by lia. exact Hd.
Qed.

Lemma prefix_indices_nth (os : list long_option) (i j : nat) (cand : string) :
  In j (prefix_indices os i cand) ->
  (i <= j)%nat
  /\ exists d, nth_error os (j - i) = Some d
               /\ String.prefix cand (name d) = true.
Proof.
  revert i; induction os as [|o rest IH]; intros i H; simpl in H.
  - contradiction.
  - assert (T : In j (prefix_indices rest (S i) cand) ->
                (i <= j)%nat
                /\ exists d, nth_error (o :: rest) (j - i) = Some d
                             /\ String.prefix cand (name d) = true).
    { intros H'. apply IH in H'. destruct H' as (Hle & d & Hd & Hn).
      split; [lia|]. exists d. split; [|exact Hn].
      replace (j - i)%nat with (S (j - S i)) by lia. exact Hd. }
    destruct (String.prefix cand (name o)) eqn:E; [|auto].
    destruct H as [<-|H]; [|auto].
    split; [lia|]. rewrite Nat.sub_diag. exists o. auto.
Qed.

(** What the rule selects is a descriptor of the table whose name starts
    with the candidate. *)
Lemma spec_resolve_selected (os : list long_option) (cand : string) (i : nat) :
  spec_resolve os cand = Selected i ->
  exists d, nth_error os i = Some d /\ String.prefix cand (name d) = true.
Proof.
  unfold spec_resolve. intros H.
  destruct (exact_index os 0 cand) as [j|] eqn:E.
  - inversion H; subst. apply exact_index_nth in E.
    destruct E as (_ & d & Hd & Hn). rewrite Nat.sub_0_r in Hd.
    exists d. split; [exact Hd|]. rewrite Hn.
    rewrite prefix_same_length by reflexivity. apply String.eqb_refl.
  - destruct (prefix_indices os 0 cand) as [|j [|k l]] eqn:P;
      try discriminate.
    inversion H; subst.
    assert (Hin : In i (prefix_indices os 0 cand)) by (rewrite P; left; auto).
    apply prefix_indices_nth in Hin. destruct Hin as (_ & d & Hd & Hn).
    rewrite Nat.sub_0_r in Hd. eauto.
Qed.

Lemma getopt_long_at_token (fuel : nat) (argc : Z) (optstring : string)
    (longopts : list long_option) (longindex : option nat) (p : cptr)
    (s : state) :
  long_token (load mem p) ->
  getopt_long_at mem fuel argc optstring longopts longindex p s
  = long_option_at mem argc longopts longindex p s.
Proof.
  intros [H3 H2]. unfold getopt_long_at.
  assert (E : Nat.ltb (strlen (load mem p)) 3 = false)
    by (apply Nat.ltb_ge; exact H3).
  rewrite E, H2. reflexivity.
Qed.

Lemma long_option_at_selected (argc : Z) (longopts : list long_option)
    (longindex : option nat) (p : cptr) (s : state) (i : nat) :
  find_match longopts 0 (sdrop 2 (load mem p))
             (strcspn (sdrop 2 (load mem p)) "=") None 0 = (Some i, 1) ->
  long_option_at mem argc longopts longindex p s
  = (r <- resolve_match mem argc longopts longindex i p s ;;
     Ret (fst r, set_optind (snd r) (optind (snd r) + 1))).
Proof.
  intros H. unfold long_option_at. rewrite H. reflexivity.
Qed.

Lemma long_option_at_unmatched (argc : Z) (longopts : list long_option)
    (longindex : option nat) (p : cptr) (s : state) (m : option nat) (n : Z) :
  find_match longopts 0 (sdrop 2 (load mem p))
             (strcspn (sdrop 2 (load mem p)) "=") None 0 = (m, n) ->
  n <> 1 ->
  opterr s = 0 ->
  long_option_at mem argc longopts longindex p s
  = Ret (int_of_char "?", set_optind s (optind s + 1)).
Proof.
  intros H Hn Hz. unfold long_option_at, report_no_match. rewrite H.
  assert (E : (n =? 1) = false) by (apply Z.eqb_neq; exact Hn).
  rewrite E, Hz. reflexivity.
Qed.

(** C4: the table lookup of [getopt_long] follows the rule of the
    specification.  For an element "--name" or "--name=value" the resolver
    takes, a descriptor whose name is exactly the candidate name is selected
    (the first one in table order); otherwise a single descriptor whose name
    starts with the candidate is; the selected descriptor is the one the call
    resolves.  With more than one prefix match, and with none, the call
    returns '?'.  For the table "help", "hex" (both without argument), "--he"
    gives '?' and "--hel" resolves to "help": the call writes and returns
    what the descriptor of "help" says. *)
Theorem long_option_resolution (fuel : nat) (argc : Z) (optstring : string)
    (longopts : list long_option) (longindex : option nat)
    (s s1 : state) (p : cptr) :
  reaches mem fuel argc s s1 p ->
  long_token (load mem p) ->
  match spec_resolve longopts (candidate (load mem p)) with
  | Selected i =>
      (exists d, nth_error longopts i = Some d
                 /\ String.prefix (candidate (load mem p)) (name d) = true)
      /\ getopt_long mem fuel argc optstring longopts longindex s
         = (r <- resolve_match mem argc longopts longindex i p s1 ;;
            Ret (fst r, set_optind (snd r) (optind (snd r) + 1)))
  | Ambiguous | Unrecognized =>
      getopt_long mem fuel argc optstring longopts longindex s
      = Ret (int_of_char "?", set_optind s1 (optind s1 + 1))
  end
  /\ (forall f1 v1 f2 v2,
        longopts = [mkopt "help" no_argument f1 v1;
                    mkopt "hex" no_argument f2 v2] ->
        (load mem p = "--he"%string ->
         getopt_long mem fuel argc optstring longopts longindex s
         = Ret (int_of_char "?", set_optind s1 (optind s1 + 1)))
        /\ (load mem p = "--hel"%string ->
            getopt_long mem fuel argc optstring longopts longindex s
            = Ret (match f1 with Some _ => 0 | None => v1 end,
                   set_optind
                     (set_ints s1 (store_opt f1 v1
                                     (store_opt longindex 0 (ints s1))))
                     (optind s1 + 1)))).
Proof.
  intros Hr Ht.
  rewrite (getopt_long_reaches _ _ _ _ _ _ _ _ Hr).
  rewrite (getopt_long_at_token _ _ _ _ _ _ _ Ht).
  destruct (reaches_fields _ _ _ _ _ Hr) as (_ & _ & Herr & _).
  assert (Hun : forall m n,
             find_match longopts 0 (sdrop 2 (load mem p))
               (strcspn (sdrop 2 (load mem p)) "=") None 0 = (m, n) ->
             n <> 1 ->
             long_option_at mem argc longopts longindex p s1
             = Ret (int_of_char "?", set_optind s1 (optind s1 + 1))).
  { intros m n Hm Hn. eapply long_option_at_unmatched; eauto. }
  split.
  - pose proof (find_match_resolution longopts (sdrop 2 (load mem p))) as F.
    unfold candidate.
    destruct (spec_resolve longopts (before_eq (sdrop 2 (load mem p))))
      as [i| |] eqn:E.
    + split; [apply spec_resolve_selected; exact E|].
      apply long_option_at_selected; exact F.
    + destruct F as (m & n & F & Hn). apply (Hun m n F). lia.
    + apply (Hun None 0 F). lia.
  - intros f1 v1 f2 v2 ->. split; intros Hl.
    + apply (Hun (Some 1%nat) 2); [rewrite Hl; reflexivity | lia].
    + rewrite (long_option_at_selected _ _ _ _ _ 0%nat)
        by (rewrite Hl; reflexivity).
      unfold resolve_match, long_value. simpl. rewrite Hl. simpl.
      destruct f1; reflexivity.
Qed.

(** The outcome of a descriptor without argument when the element has no
    '=': 0 for a descriptor with a flag location, its value otherwise. *)
Lemma plain_option_outcome (fuel : nat) (argc : Z)
    (optstring : string) (longopts : list long_option)
    (longindex : option nat) (s s1 : state) (p : cptr) (i : nat)
    (d : long_option) :
  reaches mem fuel argc s s1 p ->
  long_token (load mem p) ->
  find_match longopts 0 (sdrop 2 (load mem p))
             (strcspn (sdrop 2 (load mem p)) "=") None 0 = (Some i, 1) ->
  nth_error longopts i = Some d ->
  has_arg d = no_argument ->
  strchr (load mem p) "=" = None ->
  getopt_long mem fuel argc optstring longopts longindex s
  = Ret (match flag d with Some _ => 0 | None => val d end,
         set_optind
           (set_ints s1 (store_opt (flag d) (val d)
                           (store_opt longindex (Z.of_nat i) (ints s1))))
           (optind s1 + 1)).
Proof.
  intros Hr Ht Hm Hd Hno Hk.
  rewrite (getopt_long_reaches _ _ _ _ _ _ _ _ Hr).
  rewrite (getopt_long_at_token _ _ _ _ _ _ _ Ht).
  rewrite (long_option_at_selected _ _ _ _ _ _ Hm).
  unfold resolve_match, long_value. rewrite Hd, Hno, Hk. reflexivity.
Qed.

(** C7: when the element resolves to the single descriptor [d], [d] takes
    no argument, and the element contains '=', [getopt_long] returns '?',
    whatever the flag location and the value of [d] are; the state is the one
    the call would have returned with the flag/value outcome. *)
Theorem value_for_plain_option_rejected (fuel : nat) (argc : Z)
    (optstring : string) (longopts : list long_option)
    (longindex : option nat) (s s1 : state) (p : cptr) (i : nat)
    (d : long_option) (k : nat) :
  reaches mem fuel argc s s1 p ->
  long_token (load mem p) ->
  find_match longopts 0 (sdrop 2 (load mem p))
             (strcspn (sdrop 2 (load mem p)) "=") None 0 = (Some i, 1) ->
  nth_error longopts i = Some d ->
  has_arg d = no_argument ->
  strchr (load mem p) "=" = Some k ->
  getopt_long mem fuel argc optstring longopts longindex s
  = Ret (int_of_char "?",
         set_optind
           (set_ints s1 (store_opt (flag d) (val d)
                           (store_opt longindex (Z.of_nat i) (ints s1))))
           (optind s1 + 1)).
Proof.
  intros Hr Ht Hm Hd Hno Hk.
  rewrite (getopt_long_reaches _ _ _ _ _ _ _ _ Hr).
  rewrite (getopt_long_at_token _ _ _ _ _ _ _ Ht).
  rewrite (long_option_at_selected _ _ _ _ _ _ Hm).
  unfold resolve_match, long_value. rewrite Hd, Hno, Hk. reflexivity.
Qed.

(** C9: when the element resolves to the single descriptor [d] at index
    [i], the call stores [i] through [longindex] and then the value of [d]
    through its flag pointer (each when non-NULL), and these stores are in
    the state the call returns also when it returns '?' (an '=' given to a
    descriptor without argument) or ':' (a required value that is missing). *)
Theorem writes_survive_error_outcome (fuel : nat) (argc : Z)
    (optstring : string) (longopts : list long_option)
    (longindex : option nat) (s s1 : state) (p : cptr) (i : nat)
    (d : long_option) :
  reaches mem fuel argc s s1 p ->
  long_token (load mem p) ->
  find_match longopts 0 (sdrop 2 (load mem p))
             (strcspn (sdrop 2 (load mem p)) "=") None 0 = (Some i, 1) ->
  nth_error longopts i = Some d ->
  argc <= Z.of_nat (List.length (argv s)) ->
  exists (r : Z) (s' : state),
    getopt_long mem fuel argc optstring longopts longindex s = Ret (r, s')
    /\ ints s' = store_opt (flag d) (val d)
                   (store_opt longindex (Z.of_nat i) (ints s))
    /\ (forall l, flag d = Some l -> ints s' l = val d)
    /\ (forall l, longindex = Some l -> flag d <> Some l ->
                  ints s' l = Z.of_nat i)
    /\ (has_arg d = no_argument -> strchr (load mem p) "=" <> None ->
        r = int_of_char "?")
    /\ (has_arg d = required_argument -> strchr (load mem p) "=" = None ->
        argc <= optind s1 + 1 -> r = int_of_char ":").
Proof.
  intros Hr Ht Hm Hd Hlen.
  rewrite (getopt_long_reaches _ _ _ _ _ _ _ _ Hr).
  rewrite (getopt_long_at_token _ _ _ _ _ _ _ Ht).
  rewrite (long_option_at_selected _ _ _ _ _ _ Hm).
  destruct (reaches_fields _ _ _ _ _ Hr)
    as (_ & _ & _ & Hi & Hlt & _ & Hints & _ & (_ & Hl & _)).
  assert (Hrd : forall f : nat -> Z,
             (forall l, flag d = Some l ->
                        store_opt (flag d) (val d) f l = val d)
             /\ (forall l, longindex = Some l -> flag d <> Some l ->
                   store_opt (flag d) (val d)
                     (store_opt longindex (Z.of_nat i) f) l = Z.of_nat i)).
  { intros f. split.
    - intros l ->. simpl. unfold upd. now rewrite Nat.eqb_refl.
    - intros l -> Hne. destruct (flag d) as [l'|]; simpl; unfold upd.
      + destruct (Nat.eqb l l') eqn:E.
        * apply Nat.eqb_eq in E. congruence.
        * now rewrite Nat.eqb_refl.
      + now rewrite Nat.eqb_refl. }
  unfold resolve_match, long_value. rewrite Hd, Hints.
  destruct (has_arg d) eqn:Hmode; simpl.
  - destruct (strchr (load mem p) "=") as [k|] eqn:Hk; simpl;
      eexists _, _; (split; [reflexivity|]); simpl;
      (split; [reflexivity|]); (split; [apply Hrd|]); (split; [apply Hrd|]);
      split; intros; congruence.
  - destruct (strchr (load mem p) "=") as [k|] eqn:Hk; simpl.
    + eexists _, _; (split; [reflexivity|]); simpl;
      (split; [reflexivity|]); (split; [apply Hrd|]); (split; [apply Hrd|]);
      split; intros; congruence.
    + destruct (optind s1 + 1 <? argc) eqn:Hnext; simpl.
      * apply Z.ltb_lt in Hnext. unfold arg_at. simpl.
        assert (E0 : (optind s1 + 1 <? 0) = false) by (apply Z.ltb_ge; lia).
        rewrite E0.
        destruct (nth_error (argv s1) (Z.to_nat (optind s1 + 1)))
          as [a|] eqn:Ea.
        2:{ apply nth_error_None in Ea. lia. }
        simpl. destruct a as [q|]; simpl;
          eexists _, _; (split; [reflexivity|]); simpl;
          (split; [reflexivity|]); (split; [apply Hrd|]);
          (split; [apply Hrd|]); split; intros; try congruence; lia.
      * eexists _, _; (split; [reflexivity|]); simpl;
          (split; [reflexivity|]); (split; [apply Hrd|]);
          (split; [apply Hrd|]); split; intros; congruence.
  - destruct (strchr (load mem p) "=") as [k|] eqn:Hk; simpl;
      eexists _, _; (split; [reflexivity|]); simpl;
      (split; [reflexivity|]); (split; [apply Hrd|]); (split; [apply Hrd|]);
      split; intros; congruence.
Qed.

Lemma find_match_empty_candidate (os : list long_option) (i : nat)
    (cur : string) (m : option nat) (n : Z) :
  Forall (fun d => name d <> EmptyString) os ->
  find_match os i cur 0 m n
  = (match os with
     | [] => m
     | _ :: _ => Some (i + List.length os - 1)%nat
     end, n + Z.of_nat (List.length os)).
Proof.
  intros H; revert i m n; induction H as [|o rest Ho Hrest IH];
    intros i m n; simpl.
  - f_equal. lia.
  - destruct (name o) as [|c t] eqn:E; [congruence|]. simpl.
    rewrite IH. destruct rest; simpl; f_equal; try lia.
    + f_equal. lia.
    + f_equal. lia.
Qed.

(** C10, amended: in a table of at least two descriptors, none of which has
    the empty name, an element that starts with "--=" has the empty candidate
    name, every descriptor counts as a prefix match (the loop ends with
    [num_matches] equal to the size of the table), and [getopt_long] returns
    '?'. *)
Theorem empty_candidate_is_ambiguous (fuel : nat) (argc : Z)
    (optstring : string) (longopts : list long_option)
    (longindex : option nat) (s s1 : state) (p : cptr) (v : string) :
  reaches mem fuel argc s s1 p ->
  load mem p = ("--=" ++ v)%string ->
  (2 <= List.length longopts)%nat ->
  Forall (fun d => name d <> EmptyString) longopts ->
  candidate (load mem p) = EmptyString
  /\ find_match longopts 0 (sdrop 2 (load mem p))
                (strcspn (sdrop 2 (load mem p)) "=") None 0
     = (Some (List.length longopts - 1)%nat,
        Z.of_nat (List.length longopts))
  /\ getopt_long mem fuel argc optstring longopts longindex s
     = Ret (int_of_char "?", set_optind s1 (optind s1 + 1)).
Proof.
  intros Hr Hl H2 Hne.
  assert (Hf : find_match longopts 0 (sdrop 2 (load mem p))
                 (strcspn (sdrop 2 (load mem p)) "=") None 0
               = (Some (List.length longopts - 1)%nat,
                  Z.of_nat (List.length longopts))).
  { rewrite Hl. simpl. rewrite find_match_empty_candidate by exact Hne.
    destruct longopts; simpl in *; [lia|reflexivity]. }
  split; [rewrite Hl; reflexivity|]. split; [exact Hf|].
  rewrite (getopt_long_reaches _ _ _ _ _ _ _ _ Hr).
  rewrite getopt_long_at_token by (rewrite Hl; split; simpl; [lia|reflexivity]).
  destruct (reaches_fields _ _ _ _ _ Hr) as (_ & _ & Herr & _).
  eapply long_option_at_unmatched; [exact Hf| lia |exact Herr].
Qed.

(** *** A pass over operands only *)

Lemma rotate_window (pre : list (option cptr)) (x : option cptr)
    (w post : list (option cptr)) :
  w <> [] ->
  rotate (pre ++ x :: w ++ post) (Z.of_nat (List.length pre))
         (Z.of_nat (S (List.length w)))
  = Ret (pre ++ w ++ x :: post).
Proof.
  intros Hw. unfold rotate.
  assert (Hlw : (1 <= List.length w)%nat)
    by (destruct w; [congruence|simpl; lia]).
  assert (E1 : (Z.of_nat (S (List.length w)) <=? 1) = false)
    by (apply Z.leb_gt; lia).
  rewrite E1.
  assert (E2 : (0 <=? Z.of_nat (List.length pre))
               && (Z.of_nat (List.length pre) + Z.of_nat (S (List.length w))
                   <=? Z.of_nat (List.length (pre ++ x :: w ++ post)))
               = true).
  { apply andb_true_iff; split; apply Z.leb_le; [lia|].
    rewrite length_app. simpl. rewrite length_app. lia. }
  rewrite E2, Nat2Z.id.
  replace (Z.to_nat (Z.of_nat (S (List.length w)) - 1)) with (List.length w)
    by lia.
  rewrite skipn_app, Nat.sub_diag, skipn_all. cbn [skipn app].
  rewrite firstn_app, Nat.sub_diag, firstn_all. cbn [firstn]. rewrite app_nil_r.
  rewrite firstn_app, Nat.sub_diag, firstn_all. cbn [firstn]. rewrite app_nil_r.
  rewrite skipn_app, Nat.sub_diag, skipn_all. cbn [skipn app]. reflexivity.
Qed.

(** The loop of lines 91-93 on a window of operands whose anchor occurs once:
    it stops when the anchor is back under the scan index, with the window
    in its original order. *)
Lemma rotate_to_option_cycle (a0 : option cptr) (post : list (option cptr))
    (anchor : cptr) (ps : list cptr) :
  (2 <= List.length ps)%nat ->
  Forall (fun q => deref mem q <> "-"%char) ps ->
  hd_error ps = Some anchor ->
  ~ In anchor (tl ps) ->
  forall (u v : list cptr) (fuel : nat) (s : state),
    v ++ u = ps ->
    u <> [] ->
    (List.length u <= fuel)%nat ->
    argv s = a0 :: map Some (u ++ v) ++ post ->
    optind s = 1 ->
    first s = Some anchor ->
    rotate_to_option mem fuel (Z.of_nat (S (List.length ps))) s
    = Ret (set_argv s (a0 :: map Some ps ++ post)).
Proof.
  intros Hlen Hops Hhd Hnot.
  induction u as [|x u' IH]; intros v fuel s Hps Hu Hfuel Ha Hi Hf;
    [congruence|].
  destruct fuel as [|k]; [simpl in Hfuel; lia|]. cbn [rotate_to_option].
  assert (Hl : List.length ps = S (List.length (u' ++ v))).
  { rewrite <- Hps. rewrite !length_app. simpl. lia. }
  assert (Hw : map Some (u' ++ v) <> []).
  { destruct (u' ++ v) eqn:E; [|discriminate]. simpl in Hl. lia. }
  assert (R : rotate (argv s) (optind s)
                (Z.of_nat (S (List.length ps)) - optind s)
              = Ret (a0 :: map Some (u' ++ v) ++ Some x :: post)).
  { pose proof (rotate_window [a0] (Some x) (map Some (u' ++ v)) post Hw) as R.
    rewrite length_map in R. rewrite Ha, Hi.
    replace (Z.of_nat (S (List.length ps)) - 1)
      with (Z.of_nat (S (List.length (u' ++ v)))) by lia.
    exact R. }
  rewrite R. cbn [bind]. unfold arg_at. cbn [argv set_argv optind].
  rewrite Hi. change (1 <? 0) with false. change (Z.to_nat 1) with 1%nat.
  cbn [nth_error].
  assert (Hnew : map Some (u' ++ v) ++ Some x :: post
                 = map Some (u' ++ (v ++ [x])) ++ post).
  { rewrite !map_app. simpl. rewrite <- !app_assoc. reflexivity. }
  rewrite Hnew.
  destruct u' as [|y u''].
  - (* the window is back in its original order *)
    assert (Hv : v ++ [x] = ps) by exact Hps.
    cbn [app]. rewrite Hv.
    destruct ps as [|q ps']; [simpl in Hlen; lia|].
    simpl in Hhd. inversion Hhd; subst q.
    cbn [map app nth_error bind first set_argv ptr_eqb].
    rewrite Hf. cbn [ptr_eqb]. rewrite cptr_eqb_refl, andb_false_r.
    reflexivity.
  - cbn [map app nth_error bind first set_argv ptr_eqb]. rewrite Hf.
    cbn [ptr_eqb].
    assert (Hy : In y ps)
      by (rewrite <- Hps; apply in_or_app; right; simpl; auto).
    assert (Hd : deref mem y <> "-"%char)
      by (rewrite Forall_forall in Hops; apply Hops; exact Hy).
    apply Ascii.eqb_neq in Hd. rewrite Hd.
    assert (Hne : cptr_eqb y anchor = false).
    { destruct (cptr_eqb y anchor) eqn:E; [|reflexivity].
      apply cptr_eqb_eq in E. subst y. exfalso. apply Hnot.
      rewrite <- Hps. destruct v as [|z v']; simpl.
      - left; reflexivity.
      - apply in_or_app; right; simpl; auto. }
    rewrite Hne. cbn [negb andb].
    transitivity
      (Ret (set_argv
              (set_argv s (a0 :: map Some ((y :: u'') ++ v ++ [x]) ++ post))
              (a0 :: map Some ps ++ post))); [|reflexivity].
    apply (IH (v ++ [x]) k
             (set_argv s (a0 :: map Some ((y :: u'') ++ v ++ [x]) ++ post))).
    + rewrite <- Hps, <- app_assoc. reflexivity.
    + discriminate.
    + simpl in *; lia.
    + reflexivity.
    + exact Hi.
    + exact Hf.
Qed.

Lemma permute_operands (fuel : nat) (argc : Z) (s : state)
    (a0 : option cptr) (p1 : cptr) (rest : list cptr)
    (post : list (option cptr)) :
  argv s = a0 :: map Some (p1 :: rest) ++ post ->
  argc = Z.of_nat (S (S (List.length rest))) ->
  (1 <= List.length rest)%nat ->
  Forall (fun q => deref mem q <> "-"%char) (p1 :: rest) ->
  ~ In p1 rest ->
  optind s = 1 ->
  first s = None ->
  (S (List.length rest) <= fuel)%nat ->
  permute mem fuel argc p1 s = Ret (NoMore (set_first s (Some p1))).
Proof.
  intros Ha Hc Hn Hops Hnot Hi Hf Hfuel. unfold permute.
  assert (Hd : deref mem p1 <> "-"%char) by (inversion Hops; assumption).
  apply Ascii.eqb_neq in Hd. rewrite Hd. cbn [negb].
  assert (E : (argc - optind s <=? 1) = false)
    by (apply Z.leb_gt; rewrite Hi; lia).
  rewrite E, Hf. cbn [is_null].
  rewrite Hc.
  rewrite (rotate_to_option_cycle a0 post p1 (p1 :: rest))
    with (u := p1 :: rest) (v := []); simpl; auto; try lia.
  - unfold arg_at. simpl. rewrite Hi. simpl. rewrite cptr_eqb_refl.
    destruct s; simpl in *; subst; reflexivity.
  - discriminate.
  - rewrite app_nil_r. exact Ha.
Qed.

(** C3, amended: take an array whose elements after the program name are
    at least two operands (none starts with '-') and whose first operand is
    not also one of the later elements, that is, the pointer
    [argv[1]] does not occur again.  A fresh pass (scan index 1 or less, no
    anchor recorded) reports "no more options" at its first call, of
    [getopt] as of [getopt_long], and the array is as it was: the rotations
    made a full cycle. *)
Theorem operands_only_pass (fuel : nat) (argc : Z) (optstring : string)
    (longopts : list long_option) (longindex : option nat) (s : state)
    (a0 : option cptr) (p1 : cptr) (rest : list cptr)
    (post : list (option cptr)) :
  argv s = a0 :: map Some (p1 :: rest) ++ post ->
  argc = Z.of_nat (S (S (List.length rest))) ->
  (1 <= List.length rest)%nat ->
  Forall (fun q => deref mem q <> "-"%char) (p1 :: rest) ->
  ~ In p1 rest ->
  optind s <= 1 ->
  first s = None ->
  (S (List.length rest) <= fuel)%nat ->
  (exists s' : state,
     getopt mem fuel argc optstring s = Ret (-1, s')
     /\ argv s' = argv s
     /\ texts mem (argv s') = texts mem (argv s))
  /\ (exists s' : state,
        getopt_long mem fuel argc optstring longopts longindex s
        = Ret (-1, s')
        /\ argv s' = argv s
        /\ texts mem (argv s') = texts mem (argv s)).
Proof.
  intros Ha Hc Hn Hops Hnot Hi Hf Hfuel.
  destruct (enter_fields s) as (F1 & _ & _ & _ & _ & F6 & _).
  assert (Hi' : optind (enter s) = 1) by (rewrite enter_optind; lia).
  assert (E : (argc <=? optind (enter s)) = false)
    by (apply Z.leb_gt; lia).
  assert (Hat : arg_at (enter s) (optind (enter s)) = Ret (Some p1)).
  { unfold arg_at. rewrite Hi', F1, Ha. reflexivity. }
  assert (Hp : permute mem fuel argc p1 (enter s)
               = Ret (NoMore (set_first (enter s) (Some p1)))).
  { apply (permute_operands fuel argc (enter s) a0 p1 rest post);
      auto; congruence. }
  split.
  - unfold getopt. rewrite E, Hat. cbn [bind]. rewrite Hp. cbn [bind].
    unfold no_more_optchars. eexists. split; [reflexivity|].
    simpl. rewrite F1. auto.
  - unfold getopt_long. rewrite E, Hat. cbn [bind]. rewrite Hp. cbn [bind].
    unfold no_more_optchars_long. eexists. split; [reflexivity|].
    simpl. rewrite F1. auto.
Qed.

(** The anchor is compared by address, never cleared by the early return of
    [getopt_long], and a later pass that finds it set does not record its
    own: over two operands that are not the stale anchor the loop of lines
    91-93 rotates for ever. *)
Lemma stale_anchor_rotates_for_ever (a0 : option cptr) (x y anchor : cptr) :
  deref mem x <> "-"%char ->
  deref mem y <> "-"%char ->
  anchor <> x ->
  anchor <> y ->
  forall (fuel : nat) (s : state),
    argv s = [a0; Some x; Some y] \/ argv s = [a0; Some y; Some x] ->
    optind s = 1 ->
    first s = Some anchor ->
    rotate_to_option mem fuel 3 s = Timeout.
Proof.
  intros Hx Hy Hax Hay.
  apply Ascii.eqb_neq in Hx, Hy.
  assert (Ex : cptr_eqb x anchor = false).
  { destruct (cptr_eqb x anchor) eqn:E; [|reflexivity].
    apply cptr_eqb_eq in E. congruence. }
  assert (Ey : cptr_eqb y anchor = false).
  { destruct (cptr_eqb y anchor) eqn:E; [|reflexivity].
    apply cptr_eqb_eq in E. congruence. }
  induction fuel as [|k IH]; intros s Ha Hi Hf; [reflexivity|].
  cbn [rotate_to_option]. rewrite Hi.
  destruct Ha as [Ha|Ha]; rewrite Ha.
  - change (rotate [a0; Some x; Some y] 1 (3 - 1))
      with (Ret [a0; Some y; Some x]).
    cbn [bind]. unfold arg_at. cbn [argv set_argv optind first]. rewrite Hi, Hf.
    change (1 <? 0) with false.
    change (nth_error [a0; Some y; Some x] (Z.to_nat 1))
      with (Some (Some y)).
    cbn [bind ptr_eqb]. rewrite Hy, Ey. cbn [negb andb].
    apply IH; cbn; auto.
  - change (rotate [a0; Some y; Some x] 1 (3 - 1))
      with (Ret [a0; Some x; Some y]).
    cbn [bind]. unfold arg_at. cbn [argv set_argv optind first]. rewrite Hi, Hf.
    change (1 <? 0) with false.
    change (nth_error [a0; Some x; Some y] (Z.to_nat 1))
      with (Some (Some x)).
    cbn [bind ptr_eqb]. rewrite Hx, Ex. cbn [negb andb].
    apply IH; cbn; auto.
Qed.

Lemma stale_anchor_diverges (fuel : nat) (optstring : string) (s : state)
    (a0 : option cptr) (x y anchor : cptr) :
  argv s = [a0; Some x; Some y] ->
  optind s <= 1 ->
  first s = Some anchor ->
  deref mem x <> "-"%char ->
  deref mem y <> "-"%char ->
  anchor <> x ->
  anchor <> y ->
  getopt mem fuel 3 optstring s = Timeout.
Proof.
  intros Ha Hi Hf Hx Hy Hax Hay.
  destruct (enter_fields s) as (F1 & _ & _ & _ & _ & F6 & _).
  assert (Hi' : optind (enter s) = 1) by (rewrite enter_optind; lia).
  unfold getopt. rewrite Hi'. change (3 <=? 1) with false. cbn iota.
  unfold arg_at at 1. rewrite F1, Ha.
  change (1 <? 0) with false.
  change (nth_error [a0; Some x; Some y] (Z.to_nat 1)) with (Some (Some x)).
  cbn [bind]. unfold permute.
  pose proof Hx as Hx'. apply Ascii.eqb_neq in Hx'. rewrite Hx', Hi', F6, Hf.
  change (3 - 1 <=? 1) with false. cbn [negb is_null].
  rewrite (stale_anchor_rotates_for_ever a0 x y anchor); auto.
  - left. congruence.
  - congruence.
Qed.

End Properties.

(** ** The calls at work *)

(** C1: on [prog -x] with the specification "a" and error reporting enabled
    by the caller ([opterr] is 1 when the call is made), [getopt] reads the
    character 'x', which the specification does not contain, and returns '?',
    but writes nothing to [stderr]: line 66 sets [opterr] to 0 before line 170
    tests it.  The lines 116-180 themselves, entered with [opterr] still 1,
    write the diagnostic that names 'x'. *)
Theorem unknown_option_is_silent (fuel : nat) :
  opterr (initial (args [0; 1]%nat)) = 1
  /\ optchar_at mem_unknown (mkptr 1 0) (enter (initial (args [0; 1]%nat)))
     = "x"%char
  /\ strchr "a" "x" = None
  /\ (exists s' : state,
        getopt mem_unknown fuel 2 "a" (initial (args [0; 1]%nat))
        = Ret (int_of_char "?", s')
        /\ optopt s' = int_of_char "x"
        /\ opterr s' = 0
        /\ stderr s' = [])
  /\ (exists s' : state,
        short_option mem_unknown 2 "a" (mkptr 1 0)
          (set_opterr (enter (initial (args [0; 1]%nat))) 1)
        = Ret (int_of_char "?", s')
        /\ stderr s' = [("prog: invalid option -- 'x'" ++ newline)%string]).
Proof.
  split; [reflexivity|]. split; [vm_compute; reflexivity|].
  split; [reflexivity|]. split.
  - eexists. split; [vm_compute; reflexivity|]. repeat split.
  - eexists. split; [vm_compute; reflexivity|]. vm_compute. reflexivity.
Qed.

(** C2: [getopt_long] reports "no more options" without clearing what
    [getopt] clears.  On [prog a -o] with the specification "o:" the first
    call moves the operand behind the option, records it as the anchor and
    returns 'o' with the operand as value; the second call finds the scan
    index at the end, returns -1 at line 211, and the anchor is still set,
    where [getopt] in the same state returns -1 with anchor and cursor
    cleared.  On [prog -x] with the specification "x" the second call of
    [getopt_long] returns -1 and leaves the cursor where the first call left
    it. *)
Theorem getopt_long_end_keeps_anchor_and_cursor :
  (exists s1 s2 s2' : state,
     getopt_long mem_trailing 2 3 "o:" [] None (initial (args [0; 1; 2]%nat))
     = Ret (int_of_char "o", s1)
     /\ optind s1 = 3
     /\ first s1 = Some (mkptr 1 0)
     /\ getopt_long mem_trailing 2 3 "o:" [] None s1 = Ret (-1, s2)
     /\ first s2 = Some (mkptr 1 0)
     /\ getopt mem_trailing 2 3 "o:" s1 = Ret (-1, s2')
     /\ first s2' = None
     /\ optcursor s2' = None)
  /\ (exists s1 s2 s2' : state,
        getopt_long mem_unknown 2 2 "x" [] None (initial (args [0; 1]%nat))
        = Ret (int_of_char "x", s1)
        /\ getopt_long mem_unknown 2 2 "x" [] None s1 = Ret (-1, s2)
        /\ optcursor s2 = Some (mkptr 1 2)
        /\ getopt mem_unknown 2 2 "x" s1 = Ret (-1, s2')
        /\ optcursor s2' = None).
Proof.
  split.
  - eexists _, _, _.
    split; [vm_compute; reflexivity|].
    split; [vm_compute; reflexivity|].
    split; [vm_compute; reflexivity|].
    split; [vm_compute; reflexivity|].
    split; [vm_compute; reflexivity|].
    split; [vm_compute; reflexivity|].
    split; vm_compute; reflexivity.
  - eexists _, _, _.
    split; [vm_compute; reflexivity|].
    split; [vm_compute; reflexivity|].
    split; [vm_compute; reflexivity|].
    split; vm_compute; reflexivity.
Qed.

(** After the run of C2 the anchor is stale: a new pass of [getopt] over the
    two operands [x y] never returns. *)
Lemma pass_after_stale_anchor_never_returns (fuel : nat) :
  getopt mem_trailing fuel 3 "o:"
    (set_optind
       (set_argv
          (outcome_state
             (getopt_long mem_trailing 2 3 "o:" [] None
                (outcome_state
                   (getopt_long mem_trailing 2 3 "o:" [] None
                      (initial (args [0; 1; 2]%nat)))
                   (initial [])))
             (initial []))
          (args [0; 3; 4]%nat))
       1)
  = Timeout.
Proof.
  apply (stale_anchor_diverges mem_trailing fuel "o:" _
           (Some (mkptr 0 0)) (mkptr 3 0) (mkptr 4 0) (mkptr 1 0));
    try (vm_compute; reflexivity); try (vm_compute; discriminate).
Qed.

(** C3, as stated, fails when two elements are the same pointer: on
    [prog x y x], where [argv[1]] and [argv[3]] are one string object, no
    element starts with '-', the fresh pass reports "no more options", and the
    array then reads [prog x x y]. *)
Lemma aliased_operands_change_order :
  texts mem_operands (argv aliased)
  = [Some "prog"; Some "x"; Some "y"; Some "x"]%string
  /\ Forall (fun e => exists q, e = Some q /\ deref mem_operands q <> "-"%char)
            (tl (argv aliased))
  /\ optind aliased = 1 /\ first aliased = None /\ optcursor aliased = None
  /\ outcome_value (getopt mem_operands 3 4 EmptyString aliased) = -1
  /\ texts mem_operands
       (argv (outcome_state (getopt mem_operands 3 4 EmptyString aliased)
                            aliased))
     = [Some "prog"; Some "x"; Some "x"; Some "y"]%string
  /\ texts mem_operands
       (argv (outcome_state (getopt mem_operands 3 4 EmptyString aliased)
                            aliased))
     <> texts mem_operands (argv aliased).
Proof.
  repeat split; try (vm_compute; reflexivity);
    try (vm_compute; discriminate).
  repeat constructor; eexists;
    (split; [reflexivity|vm_compute; discriminate]).
Qed.

(** C10, as stated, fails for a table with an empty name in it: with the two
    descriptors of [unnamed_first], the element "--=x" is an exact match of
    the first one, the loop ends with one match, and the call returns the
    value of that descriptor, 101, with "x" as the option's value. *)
Lemma empty_name_is_exact_match :
  (2 <= List.length unnamed_first)%nat
  /\ load mem_long (mkptr 4 0) = "--=x"%string
  /\ candidate (load mem_long (mkptr 4 0)) = EmptyString
  /\ find_match unnamed_first 0 (sdrop 2 (load mem_long (mkptr 4 0)))
                (strcspn (sdrop 2 (load mem_long (mkptr 4 0))) "=") None 0
     = (Some 0%nat, 1)
  /\ outcome_value
       (getopt_long mem_long 1 2 EmptyString unnamed_first None
          (initial (args [0; 4]%nat)))
     = 101
  /\ outcome_value
       (getopt_long mem_long 1 2 EmptyString unnamed_first None
          (initial (args [0; 4]%nat)))
     <> int_of_char "?"
  /\ optarg (outcome_state
               (getopt_long mem_long 1 2 EmptyString unnamed_first None
                  (initial (args [0; 4]%nat)))
               (initial []))
     = Some (mkptr 4 3).
Proof.
  repeat split; try (vm_compute; reflexivity);
    try (vm_compute; discriminate).
Qed.

(** ** The statements at concrete command lines *)

(** One call on [prog x -a y]: the operand [x] moves behind the option and
    the program name stays. *)
Lemma calls_permute_argv_witness :
  Permutation (argv mixed) (argv mixed_after)
  /\ List.length (argv mixed_after) = List.length (argv mixed)
  /\ (forall i : nat, Z.of_nat i < Z.max 1 (optind mixed) ->
        nth_error (argv mixed_after) i = nth_error (argv mixed) i)
  /\ Permutation (texts mem_operands (argv mixed))
                 (texts mem_operands (argv mixed_after)).
Proof.
  apply (calls_permute_argv mem_operands 4 4 "a" [] None mixed 97 mixed_after).
  left. vm_compute. reflexivity.
Defined.

(** [prog -o] with the specification "o:". *)
Lemma missing_value_outcome_witness :
  exists s' : state,
    getopt mem_missing 1 2 "o:" (initial (args [0; 1]%nat))
    = Ret (if Ascii.eqb (char_at "o:" 0) ":"
           then int_of_char ":" else int_of_char "?", s')
    /\ optarg s' = None.
Proof.
  apply (missing_value_outcome mem_missing 1 2 "o:"
           (initial (args [0; 1]%nat)) (enter (initial (args [0; 1]%nat)))
           (mkptr 1 0) (mkptr 1 1) 0).
  - reach_at (mkptr 1 0).
  - vm_compute; discriminate.
  - vm_compute; discriminate.
  - vm_compute; reflexivity.
  - vm_compute; reflexivity.
  - vm_compute; reflexivity.
  - vm_compute; discriminate.
  - vm_compute; reflexivity.
  - vm_compute; discriminate.
Defined.

(** [prog -o val] in a memory that holds exactly these three strings. *)
Lemma required_value_from_next_element_witness :
  exists s' : state,
    getopt mem_value 0 3 "o:" (initial (args [0; 1; 2]%nat))
    = Ret (int_of_char "o", s')
    /\ optarg s' = Some (mkptr 2 0)
    /\ load mem_value (mkptr 2 0) = "val"%string
    /\ optind s' = optind (initial (args [0; 1; 2]%nat)) + 2
    /\ optind s' = 3.
Proof.
  apply (required_value_from_next_element mem_value 0 (Some (mkptr 0 0))
           (mkptr 1 0) (mkptr 2 0) (initial (args [0; 1; 2]%nat)));
    vm_compute; reflexivity.
Defined.

(** [prog --hel] against the table "help", "hex". *)
Lemma long_option_resolution_witness :
  getopt_long mem_long 1 2 EmptyString help_hex None
    (initial (args [0; 2]%nat))
  = Ret (104,
         set_optind
           (set_ints (enter (initial (args [0; 2]%nat)))
              (store_opt None 104
                 (store_opt None 0
                    (ints (enter (initial (args [0; 2]%nat)))))))
           (optind (enter (initial (args [0; 2]%nat))) + 1)).
Proof.
  assert (R : reaches mem_long 1 2 (initial (args [0; 2]%nat))
                (enter (initial (args [0; 2]%nat))) (mkptr 2 0))
    by reach_at (mkptr 2 0).
  assert (T : long_token (load mem_long (mkptr 2 0)))
    by (split; [vm_compute; lia | vm_compute; reflexivity]).
  destruct (long_option_resolution mem_long 1 2 EmptyString help_hex None
              _ _ _ R T) as [_ H].
  destruct (H None 104 None 120 eq_refl) as [_ H2].
  apply H2. vm_compute. reflexivity.
Defined.

(** [prog --help=x] against the table "help", "hex". *)
Lemma value_for_plain_option_rejected_witness :
  getopt_long mem_long 1 2 EmptyString help_hex None
    (initial (args [0; 3]%nat))
  = Ret (int_of_char "?",
         set_optind
           (set_ints (enter (initial (args [0; 3]%nat)))
              (store_opt None 104
                 (store_opt None (Z.of_nat 0)
                    (ints (enter (initial (args [0; 3]%nat)))))))
           (optind (enter (initial (args [0; 3]%nat))) + 1)).
Proof.
  apply (value_for_plain_option_rejected mem_long 1 2 EmptyString help_hex
           None (initial (args [0; 3]%nat))
           (enter (initial (args [0; 3]%nat))) (mkptr 3 0) 0
           (mkopt "help" no_argument None 104) 6).
  - reach_at (mkptr 3 0).
  - split; [vm_compute; lia | vm_compute; reflexivity].
  - vm_compute; reflexivity.
  - reflexivity.
  - reflexivity.
  - vm_compute; reflexivity.
Defined.

(** [prog --size] against a descriptor that requires a value and has a
    flag location: the call returns ':', and both stores are there. *)
Lemma writes_survive_error_outcome_witness :
  exists (r : Z) (s' : state),
    getopt_long mem_long 1 2 EmptyString size_flag (Some 1%nat)
      (initial (args [0; 5]%nat))
    = Ret (r, s')
    /\ r = int_of_char ":"
    /\ ints s' 0%nat = 7
    /\ ints s' 1%nat = 0.
Proof.
  destruct (writes_survive_error_outcome mem_long 1 2 EmptyString size_flag
              (Some 1%nat) (initial (args [0; 5]%nat))
              (enter (initial (args [0; 5]%nat))) (mkptr 5 0) 0
              (mkopt "size" required_argument (Some 0%nat) 7))
    as (r & s' & H1 & H2 & H3 & H4 & H5 & H6).
  - reach_at (mkptr 5 0).
  - split; [vm_compute; lia | vm_compute; reflexivity].
  - vm_compute; reflexivity.
  - reflexivity.
  - vm_compute; discriminate.
  - exists r, s'. split; [exact H1|]. split.
    + apply H6; [reflexivity | vm_compute; reflexivity
                 | vm_compute; discriminate].
    + split; [apply H3; reflexivity|].
      apply (H4 1%nat); [reflexivity | discriminate].
Defined.

(** [prog --=x] against the table "help", "hex". *)
Lemma empty_candidate_is_ambiguous_witness :
  candidate (load mem_long (mkptr 4 0)) = EmptyString
  /\ find_match help_hex 0 (sdrop 2 (load mem_long (mkptr 4 0)))
                (strcspn (sdrop 2 (load mem_long (mkptr 4 0))) "=") None 0
     = (Some (List.length help_hex - 1)%nat, Z.of_nat (List.length help_hex))
  /\ getopt_long mem_long 1 2 EmptyString help_hex None
       (initial (args [0; 4]%nat))
     = Ret (int_of_char "?",
            set_optind (enter (initial (args [0; 4]%nat)))
              (optind (enter (initial (args [0; 4]%nat))) + 1)).
Proof.
  apply (empty_candidate_is_ambiguous mem_long 1 2 EmptyString help_hex None
           (initial (args [0; 4]%nat)) (enter (initial (args [0; 4]%nat)))
           (mkptr 4 0) "x").
  - reach_at (mkptr 4 0).
  - vm_compute; reflexivity.
  - vm_compute; lia.
  - repeat constructor; vm_compute; discriminate.
Defined.

(** [prog x y z], three distinct string objects. *)
Lemma operands_only_pass_witness :
  (exists s' : state,
     getopt mem_operands 3 4 EmptyString (initial (args [0; 1; 2; 3]%nat))
     = Ret (-1, s')
     /\ argv s' = argv (initial (args [0; 1; 2; 3]%nat))
     /\ texts mem_operands (argv s')
        = texts mem_operands (argv (initial (args [0; 1; 2; 3]%nat))))
  /\ (exists s' : state,
        getopt_long mem_operands 3 4 EmptyString [] None
          (initial (args [0; 1; 2; 3]%nat))
        = Ret (-1, s')
        /\ argv s' = argv (initial (args [0; 1; 2; 3]%nat))
        /\ texts mem_operands (argv s')
           = texts mem_operands (argv (initial (args [0; 1; 2; 3]%nat)))).
Proof.
  apply (operands_only_pass mem_operands 3 4 EmptyString [] None
           (initial (args [0; 1; 2; 3]%nat)) (Some (mkptr 0 0)) (mkptr 1 0)
           [mkptr 2 0; mkptr 3 0] []).
  - reflexivity.
  - reflexivity.
  - simpl; lia.
  - repeat constructor; vm_compute; discriminate.
  - simpl. intros [H|[H|[]]]; discriminate.
  - simpl; lia.
  - reflexivity.
  - simpl; lia.
Defined.

(** ** Further properties of the two entry points *)

Section Coverage.

Variable mem : nat -> string.

(** *** A call on a state that a call has already entered *)

Lemma enter_entered (s : state) :
  optarg s = None -> opterr s = 0 -> optopt s = 0 -> 1 <= optind s ->
  enter s = s.
Proof.
  destruct s as [a oa oo oi oe oc fi it se]; simpl. intros -> -> -> Hi.
  unfold enter; simpl. destruct (oi <=? 1) eqn:E; [|reflexivity].
  apply Z.leb_le in E. unfold set_optind; simpl. f_equal. lia.
Qed.

Lemma rotate_to_option_exit (fuel : nat) (argc : Z) (s s' : state) :
  rotate_to_option mem fuel argc s = Ret s' ->
  exists p : cptr,
    arg_at s' (optind s') = Ret (Some p)
    /\ (deref mem p = "-"%char \/ first s' = Some p).
Proof.
  revert s; induction fuel as [|k IH]; intros s H; simpl in H;
    [discriminate|].
  destruct (rotate (argv s) (optind s) (argc - optind s)) as [a| |] eqn:R;
    simpl in H; try discriminate.
  destruct (arg_at (set_argv s a) (optind s)) as [[p|]| |] eqn:A;
    simpl in H; try discriminate.
  match type of H with (if ?c then _ else _) = _ => destruct c eqn:C end.
  - apply IH in H. exact H.
  - inversion H; subst s'. exists p. split; [exact A|].
    apply andb_false_iff in C. destruct C as [C|C].
    + left. apply negb_false_iff in C. now apply Ascii.eqb_eq.
    + right. apply negb_false_iff in C. simpl.
      destruct (first s) as [q|]; simpl in C; [|discriminate].
      apply cptr_eqb_eq in C. congruence.
Qed.

(** The element a call arrives at starts with '-'. *)
Lemma reaches_dash (fuel : nat) (argc : Z) (s s1 : state) (p : cptr) :
  reaches mem fuel argc s s1 p -> deref mem p = "-"%char.
Proof.
  intros (Hlt & p0 & Ha & Hp & Hq). unfold permute in Hp.
  destruct (negb (Ascii.eqb (deref mem p0) "-")) eqn:D.
  - destruct (argc - optind (enter s) <=? 1); [discriminate|].
    match type of Hp with bind ?m _ = _ =>
      destruct m as [s2| |] eqn:E; cbn [bind] in Hp; try discriminate end.
    apply rotate_to_option_exit in E. destruct E as (q & Aq & Hd).
    rewrite Aq in Hp. cbn [bind] in Hp.
    destruct (ptr_eqb (Some q) (first s2)) eqn:C; [discriminate|].
    inversion Hp; subst s2. rewrite Aq in Hq. inversion Hq; subst q.
    destruct Hd as [Hd|Hd]; [exact Hd|].
    rewrite Hd in C. simpl in C. rewrite cptr_eqb_refl in C. discriminate.
  - inversion Hp; subst s1. rewrite Ha in Hq. inversion Hq; subst p0.
    apply negb_false_iff in D. now apply Ascii.eqb_eq.
Qed.

Lemma getopt_entered (fuel : nat) (argc : Z) (optstring : string)
    (s s1 : state) (p : cptr) :
  reaches mem fuel argc s s1 p ->
  getopt mem fuel argc optstring s1
  = getopt_at mem fuel argc optstring p s1.
Proof.
  intros Hr.
  destruct (reaches_fields _ _ _ _ _ _ Hr)
    as (F1 & F2 & F3 & F4 & F5 & _).
  pose proof (reaches_dash _ _ _ _ _ Hr) as Hd.
  destruct Hr as (_ & _ & _ & _ & Hq).
  assert (E : enter s1 = s1) by (apply enter_entered; auto; lia).
  apply getopt_reaches.
  assert (R : reaches mem fuel argc s1 (enter s1) p).
  { apply reaches_option; rewrite ?E; auto.
    rewrite <- deref_load. exact Hd. }
  rewrite E in R. exact R.
Qed.

(** X1: an element that the long-option resolver does not take (shorter
    than three characters, or not starting with "--") is handled by
    [getopt_long] exactly as [getopt] handles it: whenever the call gets to
    such an element, both functions return the same value and the same state,
    whatever the descriptor table is. *)
Theorem getopt_long_falls_back_to_getopt (fuel : nat) (argc : Z)
    (optstring : string) (longopts : list long_option)
    (longindex : option nat) (s s1 : state) (p : cptr) :
  reaches mem fuel argc s s1 p ->
  ~ long_token (load mem p) ->
  getopt_long mem fuel argc optstring longopts longindex s
  = getopt mem fuel argc optstring s.
Proof.
  intros Hr Hn.
  rewrite (getopt_long_reaches _ _ _ _ _ _ _ _ _ Hr).
  rewrite (getopt_reaches _ _ _ _ _ _ _ Hr).
  unfold getopt_long_at.
  destruct (Nat.ltb (strlen (load mem p)) 3
            || negb (strncmp_eq (load mem p) "--" 2)) eqn:C.
  - eapply getopt_entered; eauto.
  - exfalso. apply Hn. apply orb_false_iff in C. destruct C as [C1 C2].
    split.
    + now apply Nat.ltb_ge in C1.
    + now apply negb_false_iff in C2.
Qed.

(** *** What every call leaves behind *)

Lemma advance_optind (c : Z) (s : state) (r : Z) (s' : state) :
  advance mem c s = Ret (r, s') ->
  optind s <= optind s' <= optind s + 1.
Proof.
  unfold advance. intros H. split_rets; simpl; lia.
Qed.

Lemma short_option_leaves (argc : Z) (optstring : string) (p : cptr)
    (s : state) (r : Z) (s' : state) :
  opterr s = 0 ->
  short_option mem argc optstring p s = Ret (r, s') ->
  stderr s' = stderr s /\ opterr s' = 0 /\ ints s' = ints s
  /\ first s' = first s
  /\ optind s <= optind s' <= optind s + 2.
Proof.
  unfold short_option, pick_cursor. intros Hz H.
  destruct (cursor_idle mem s); simpl in H; rewrite ?Hz in H; simpl in H;
    split_rets;
    repeat match goal with
           | A : advance _ _ _ = Ret _ |- _ =>
               let B := fresh "B" in
               pose proof (advance_optind _ _ _ _ A) as B; simpl in B;
               apply advance_frame in A; simpl in A; destruct A as [_ ->]
           end; simpl; repeat split; auto; lia.
Qed.

Lemma long_option_at_leaves (argc : Z) (longopts : list long_option)
    (longindex : option nat) (p : cptr) (s : state) (r : Z) (s' : state) :
  opterr s = 0 ->
  long_option_at mem argc longopts longindex p s = Ret (r, s') ->
  stderr s' = stderr s /\ opterr s' = 0 /\ first s' = first s
  /\ optcursor s' = optcursor s
  /\ optind s + 1 <= optind s' <= optind s + 2.
Proof.
  unfold long_option_at, resolve_match, report_no_match, long_value.
  intros Hz H. rewrite Hz in H. simpl in H.
  split_rets; simpl; repeat split; auto; lia.
Qed.

Lemma getopt_at_leaves (fuel : nat) (argc : Z) (optstring : string)
    (p : cptr) (s : state) (r : Z) (s' : state) :
  opterr s = 0 ->
  getopt_at mem fuel argc optstring p s = Ret (r, s') ->
  stderr s' = stderr s /\ opterr s' = 0 /\ ints s' = ints s
  /\ optind s <= optind s' <= optind s + 2.
Proof.
  unfold getopt_at, no_more_optchars. intros Hz H.
  destruct (String.eqb (load mem p) "-").
  { inversion H; subst; simpl. repeat split; auto; lia. }
  destruct (String.eqb (load mem p) "--").
  - destruct (negb (is_null (first (set_optind s (optind s + 1))))); simpl in H.
    + destruct (rotate_to_anchor fuel argc (set_optind s (optind s + 1)))
        as [s2| |] eqn:E; simpl in H; try discriminate.
      inversion H; subst; simpl.
      apply rotate_to_anchor_frame in E. destruct E as [-> _]. simpl.
      repeat split; auto; lia.
    + inversion H; subst; simpl. repeat split; auto; lia.
  - apply short_option_leaves in H; [|exact Hz]. tauto.
Qed.

Lemma getopt_leaves (fuel : nat) (argc : Z) (optstring : string)
    (s : state) (r : Z) (s' : state) :
  getopt mem fuel argc optstring s = Ret (r, s') ->
  stderr s' = stderr s /\ opterr s' = 0 /\ ints s' = ints s
  /\ Z.max 1 (optind s) <= optind s' <= Z.max 1 (optind s) + 2.
Proof.
  unfold getopt, no_more_optchars. intros H.
  destruct (enter_fields s) as (F1 & F2 & F3 & F4 & F5 & F6 & F7 & F8).
  rewrite <- F8, <- F7, <- enter_optind.
  destruct (argc <=? optind (enter s)).
  { inversion H; subst; simpl. repeat split; auto; lia. }
  destruct (arg_at (enter s) (optind (enter s))) as [[p|]| |] eqn:E0;
    simpl in H; try discriminate.
  2:{ inversion H; subst; simpl. repeat split; auto; lia. }
  destruct (permute mem fuel argc p (enter s)) as [f| |] eqn:E1;
    simpl in H; try discriminate.
  apply permute_frame in E1. destruct E1 as [Hs _].
  destruct f as [s1|s1]; simpl in *.
  - inversion H; subst; simpl. rewrite Hs; simpl. repeat split; auto; lia.
  - destruct (arg_at s1 (optind s1)) as [[q|]| |] eqn:E2;
      simpl in H; try discriminate.
    apply getopt_at_leaves in H.
    + rewrite Hs in H; simpl in H. exact H.
    + rewrite Hs; simpl. exact F4.
Qed.

Lemma getopt_long_leaves (fuel : nat) (argc : Z) (optstring : string)
    (longopts : list long_option) (longindex : option nat)
    (s : state) (r : Z) (s' : state) :
  getopt_long mem fuel argc optstring longopts longindex s = Ret (r, s') ->
  stderr s' = stderr s /\ opterr s' = 0
  /\ Z.max 1 (optind s) <= optind s' <= Z.max 1 (optind s) + 2.
Proof.
  unfold getopt_long, no_more_optchars_long. intros H.
  destruct (enter_fields s) as (F1 & F2 & F3 & F4 & F5 & F6 & F7 & F8).
  rewrite <- F8, <- enter_optind.
  destruct (argc <=? optind (enter s)).
  { inversion H; subst; simpl. repeat split; auto; lia. }
  destruct (arg_at (enter s) (optind (enter s))) as [[p|]| |] eqn:E0;
    simpl in H; try discriminate.
  2:{ inversion H; subst; simpl. repeat split; auto; lia. }
  destruct (permute mem fuel argc p (enter s)) as [f| |] eqn:E1;
    simpl in H; try discriminate.
  apply permute_frame in E1. destruct E1 as [Hs _].
  destruct f as [s1|s1]; simpl in *.
  - inversion H; subst; simpl. rewrite Hs; simpl. repeat split; auto; lia.
  - destruct (arg_at s1 (optind s1)) as [[q|]| |] eqn:E2;
      simpl in H; try discriminate.
    assert (Hi : optind s1 = optind (enter s)) by (rewrite Hs; reflexivity).
    assert (He : opterr s1 = 0) by (rewrite Hs; simpl; exact F4).
    assert (Hse : stderr s1 = stderr (enter s)) by (rewrite Hs; reflexivity).
    unfold getopt_long_at in H.
    destruct (Nat.ltb (strlen (load mem q)) 3
              || negb (strncmp_eq (load mem q) "--" 2)).
    + apply getopt_leaves in H. rewrite <- Hse, <- Hi.
      assert (1 <= optind s1) by (rewrite Hi, enter_optind; lia).
      replace (Z.max 1 (optind s1)) with (optind s1) in H by lia. tauto.
    + apply long_option_at_leaves in H; [|exact He].
      rewrite <- Hse, <- Hi. repeat split; try tauto; lia.
Qed.

(** X2: no call writes a diagnostic.  Both entry points set [opterr] to 0
    at lines 66 and 203 before any of the tests [if (opterr)] of lines 159,
    170, 304 and 307, so every call that returns leaves [stderr] as it found
    it and [opterr] at 0, whatever the caller had stored there. *)
Theorem calls_never_write_diagnostics (fuel : nat) (argc : Z)
    (optstring : string) (longopts : list long_option)
    (longindex : option nat) (s : state) (r : Z) (s' : state) :
  getopt mem fuel argc optstring s = Ret (r, s')
  \/ getopt_long mem fuel argc optstring longopts longindex s = Ret (r, s') ->
  stderr s' = stderr s /\ opterr s' = 0.
Proof.
  intros [H|H].
  - apply getopt_leaves in H. tauto.
  - apply getopt_long_leaves in H. tauto.
Qed.

(** X3: the scan index never moves backwards and never jumps.  A call that
    returns leaves [optind] at least at the index it started from (1 when the
    caller had stored 1 or less) and at most two above it. *)
Theorem optind_advances_by_at_most_two (fuel : nat) (argc : Z)
    (optstring : string) (longopts : list long_option)
    (longindex : option nat) (s : state) (r : Z) (s' : state) :
  getopt mem fuel argc optstring s = Ret (r, s')
  \/ getopt_long mem fuel argc optstring longopts longindex s = Ret (r, s') ->
  Z.max 1 (optind s) <= optind s' <= Z.max 1 (optind s) + 2.
Proof.
  intros [H|H].
  - apply getopt_leaves in H. tauto.
  - apply getopt_long_leaves in H. tauto.
Qed.

(** *** What [getopt] returns *)





(** *** Ends of a pass that move nothing *)

Lemma arg_at_argv (s t : state) (i : Z) :
  argv s = argv t -> arg_at s i = arg_at t i.
Proof. unfold arg_at. intros ->. reflexivity. Qed.

Lemma enter_idem (s : state) : enter (enter s) = enter s.
Proof.
  destruct (enter_fields s) as (F1 & F2 & F3 & F4 & _).
  apply enter_entered; auto. rewrite enter_optind. lia.
Qed.

(** The state in which [getopt] reports "no more options" without having
    moved anything. *)
Lemma ended_state_entered (s : state) :
  enter (set_first (set_optcursor (enter s) None) None)
  = set_first (set_optcursor (enter s) None) None.
Proof.
  destruct (enter_fields s) as (F1 & F2 & F3 & F4 & _).
  apply enter_entered; simpl; auto. rewrite enter_optind. lia.
Qed.

(** X6: the ends of a pass that leave the scan index where it is are
    stable.  When the scan index is at or past [argc], or the element under it
    is NULL, or is the string "-", or is the only element left and an operand,
    [getopt] returns -1 with [argv] and the scan index unchanged, and a
    further call in the state it returned gives -1 and that same state
    again. *)
Theorem pass_end_is_stable (fuel : nat) (argc : Z) (optstring : string)
    (s : state) :
  argc <= Z.max 1 (optind s)
  \/ (Z.max 1 (optind s) < argc
      /\ (arg_at s (Z.max 1 (optind s)) = Ret None
          \/ exists p : cptr,
               arg_at s (Z.max 1 (optind s)) = Ret (Some p)
               /\ (load mem p = "-"%string
                   \/ (deref mem p <> "-"%char
                       /\ argc - Z.max 1 (optind s) <= 1)))) ->
  exists s1 : state,
    getopt mem fuel argc optstring s = Ret (-1, s1)
    /\ argv s1 = argv s
    /\ optind s1 = Z.max 1 (optind s)
    /\ getopt mem fuel argc optstring s1 = Ret (-1, s1).
Proof.
  intros H.
  exists (set_first (set_optcursor (enter s) None) None).
  destruct (enter_fields s) as (F1 & _).
  pose proof (enter_optind s) as Hi.
  pose proof (ended_state_entered s) as He.
  assert (Hgo : forall t : state,
             enter t = t -> argv t = argv s ->
             optind t = Z.max 1 (optind s) ->
             getopt mem fuel argc optstring t
             = Ret (-1, set_first (set_optcursor t None) None)).
  { intros t Et At It. unfold getopt. rewrite Et, It.
    destruct H as [H|(Hlt & H)].
    - assert (E : (argc <=? Z.max 1 (optind s)) = true)
        by (apply Z.leb_le; exact H).
      rewrite E. reflexivity.
    - assert (E : (argc <=? Z.max 1 (optind s)) = false)
        by (apply Z.leb_gt; exact Hlt).
      rewrite E, (arg_at_argv t s _ At).
      destruct H as [H|(p & H & Hp)]; rewrite H; cbn [bind];
        [reflexivity|].
      unfold permute. destruct Hp as [Hp|[Hp Hl]].
      + assert (D : deref mem p = "-"%char)
          by (rewrite deref_load, Hp; reflexivity).
        rewrite D, Ascii.eqb_refl. cbn [negb bind].
        rewrite (arg_at_argv t s _ At), It, H. cbn [bind].
        unfold getopt_at. rewrite Hp. reflexivity.
      + apply Ascii.eqb_neq in Hp. rewrite Hp. cbn [negb]. rewrite It.
        assert (E1 : (argc - Z.max 1 (optind s) <=? 1) = true)
          by (apply Z.leb_le; exact Hl).
        rewrite E1. reflexivity. }
  split; [|split; [|split]].
  - rewrite <- (Hgo (enter s)); auto.
    + unfold getopt. rewrite enter_idem. reflexivity.
    + apply enter_idem.
  - simpl. exact F1.
  - simpl. exact Hi.
  - rewrite (Hgo _ He); simpl; auto.
Qed.

(** *** [rotate] *)

Lemma rotate_drops (pre : list (option cptr)) (e : option cptr)
    (w post : list (option cptr)) :
  rotate (pre ++ e :: w ++ post) (Z.of_nat (List.length pre))
         (Z.of_nat (S (List.length w)))
  = Ret (pre ++ w ++ e :: post).
Proof.
  destruct w as [|x w'].
  - reflexivity.
  - apply rotate_window. discriminate.
Qed.

(** X7: [rotate] on a window that lies inside the array moves the first
    element of the window behind the others and shifts these one place to the
    left, in order; the elements before and after the window stay where they
    are.  A window of one element is left as it is. *)
Theorem rotate_moves_first_to_last (pre : list (option cptr))
    (e : option cptr) (w post : list (option cptr)) :
  rotate (pre ++ e :: w ++ post) (Z.of_nat (List.length pre))
         (Z.of_nat (S (List.length w)))
  = Ret (pre ++ w ++ e :: post).
Proof. apply rotate_drops. Qed.

(** X8: [rotate] applied as many times as a part [u] at the front of the
    window has elements moves [u] behind the rest of the window, both parts
    keeping their order; applied as many times as the window has elements it
    gives the array back. *)
Theorem rotate_times_moves_front_part (pre u v post : list (option cptr)) :
  rotate_times (List.length u) (pre ++ (u ++ v) ++ post)
               (Z.of_nat (List.length pre))
               (Z.of_nat (List.length (u ++ v)))
  = Ret (pre ++ (v ++ u) ++ post)
  /\ rotate_times (List.length (u ++ v)) (pre ++ (u ++ v) ++ post)
                  (Z.of_nat (List.length pre))
                  (Z.of_nat (List.length (u ++ v)))
     = Ret (pre ++ (u ++ v) ++ post).
Proof.
  assert (G : forall a b : list (option cptr),
             rotate_times (List.length a) (pre ++ (a ++ b) ++ post)
                          (Z.of_nat (List.length pre))
                          (Z.of_nat (List.length (a ++ b)))
             = Ret (pre ++ (b ++ a) ++ post)).
  { induction a as [|e a IH]; intros b.
    - simpl. rewrite app_nil_r. reflexivity.
    - cbn [List.length rotate_times].
      replace (pre ++ ((e :: a) ++ b) ++ post)
        with (pre ++ e :: (a ++ b) ++ post) by reflexivity.
      replace (List.length ((e :: a) ++ b))
        with (S (List.length (a ++ b))) by reflexivity.
      rewrite rotate_drops. cbn [bind].
      replace (pre ++ (a ++ b) ++ e :: post)
        with (pre ++ (a ++ b ++ [e]) ++ post)
        by (rewrite <- !app_assoc; reflexivity).
      replace (S (List.length (a ++ b)))
        with (List.length (a ++ b ++ [e]))
        by (rewrite !length_app; simpl; lia).
      rewrite IH. rewrite <- !app_assoc. reflexivity. }
  split.
  - apply G.
  - pose proof (G (u ++ v) []) as F. rewrite !app_nil_r in F.
    simpl in F. exact F.
Qed.

(** *** The two loops, in general *)

Lemma snoc_eq_cons_app {A : Type} (T : list A) (e q : A) (u rest : list A) :
  T ++ [e] = q :: u ++ rest -> rest <> [] ->
  exists T', T = q :: T' /\ T' ++ [e] = u ++ rest.
Proof.
  intros H Hne. destruct T as [|t T'].
  - simpl in H. inversion H as [[He Hnil]].
    destruct u; simpl in Hnil; [congruence|discriminate].
  - simpl in H. inversion H; subst. exists T'. auto.
Qed.

(** The loop of lines 91-93 moves the operands in front of the window behind
    it, one by one, until an element that starts with '-' or is the anchor
    comes under the scan index. *)
Lemma rotate_to_option_moves (argc : Z) (pre post : list (option cptr))
    (h : cptr) (anchor : option cptr) :
  (deref mem h = "-"%char \/ anchor = Some h) ->
  forall (u w T : list cptr) (e : cptr) (fuel : nat) (s : state),
    Forall (fun q => deref mem q <> "-"%char /\ anchor <> Some q) u ->
    T ++ [e] = u ++ h :: w ->
    argv s = pre ++ map Some (e :: T) ++ post ->
    optind s = Z.of_nat (List.length pre) ->
    first s = anchor ->
    argc = Z.of_nat (List.length pre + S (List.length T)) ->
    (List.length u < fuel)%nat ->
    rotate_to_option mem fuel argc s
    = Ret (set_argv s (pre ++ map Some (h :: w ++ u) ++ post)).
Proof.
  intros Hh.
  induction u as [|q u IH]; intros w T e fuel s Hu HT Ha Hi Hf Hc Hfuel;
    (destruct fuel as [|k]; [simpl in Hfuel; lia|]);
    cbn [rotate_to_option]; rewrite Ha, Hi;
    replace (argc - Z.of_nat (List.length pre))
      with (Z.of_nat (S (List.length (map Some T))))
      by (rewrite length_map; lia);
    cbn [map app]; rewrite rotate_drops; cbn [bind];
    replace (pre ++ map Some T ++ Some e :: post)
      with (pre ++ map Some (T ++ [e]) ++ post)
      by (rewrite map_app, <- app_assoc; reflexivity);
    rewrite HT; unfold arg_at; cbn [argv set_argv optind first];
    rewrite Hi, Hf;
    (replace (Z.of_nat (List.length pre) <? 0) with false
       by (symmetry; apply Z.ltb_ge; lia));
    rewrite Nat2Z.id, nth_error_app2 by lia;
    rewrite Nat.sub_diag.
  - cbn [app map nth_error bind].
    assert (C : negb (Ascii.eqb (deref mem h) "-")
                && negb (ptr_eqb (Some h) anchor) = false).
    { apply andb_false_iff. destruct Hh as [Hh| ->].
      - left. rewrite Hh. reflexivity.
      - right. simpl. rewrite cptr_eqb_refl. reflexivity. }
    rewrite C. rewrite app_nil_r. reflexivity.
  - cbn [app map nth_error bind].
    pose proof (Forall_inv Hu) as [Hq1 Hq2].
    pose proof (Forall_inv_tail Hu) as Hu'.
    assert (C : negb (Ascii.eqb (deref mem q) "-")
                && negb (ptr_eqb (Some q) anchor) = true).
    { apply andb_true_iff. split; apply negb_true_iff.
      - now apply Ascii.eqb_neq.
      - destruct anchor as [x|]; simpl; [|reflexivity].
        destruct (cptr_eqb q x) eqn:E; [|reflexivity].
        apply cptr_eqb_eq in E. congruence. }
    rewrite C.
    destruct (snoc_eq_cons_app T e q u (h :: w) HT) as (T' & -> & HT');
      [discriminate|].
    transitivity
      (Ret (set_argv
              (set_argv s (pre ++ map Some (q :: u ++ h :: w) ++ post))
              (pre ++ map Some (h :: (w ++ [q]) ++ u) ++ post))).
    + apply (IH (w ++ [q]) (u ++ h :: w) q k); auto.
      * rewrite <- !app_assoc. reflexivity.
      * rewrite !length_app. simpl.
        assert (L : List.length (T' ++ [e]) = List.length (u ++ h :: w))
          by (now rewrite HT').
        rewrite !length_app in L. simpl in L, Hc. simpl. lia.
      * simpl in Hfuel. lia.
    + rewrite <- !app_assoc. reflexivity.
Qed.

(** The loop of lines 109-111 moves what stands between the scan index and
    the anchor behind the rest of the window. *)
Lemma rotate_to_anchor_moves (argc : Z) (pre post : list (option cptr))
    (x : cptr) :
  forall (u w T : list (option cptr)) (e : option cptr) (fuel : nat)
         (s : state),
    ~ In (Some x) u ->
    T ++ [e] = u ++ Some x :: w ->
    argv s = pre ++ (e :: T) ++ post ->
    optind s = Z.of_nat (List.length pre) ->
    first s = Some x ->
    argc = Z.of_nat (List.length pre + S (List.length T)) ->
    (List.length u < fuel)%nat ->
    rotate_to_anchor fuel argc s
    = Ret (set_argv s (pre ++ (Some x :: w ++ u) ++ post)).
Proof.
  induction u as [|q u IH]; intros w T e fuel s Hu HT Ha Hi Hf Hc Hfuel;
    (destruct fuel as [|k]; [simpl in Hfuel; lia|]);
    cbn [rotate_to_anchor]; rewrite Ha, Hi;
    replace (argc - Z.of_nat (List.length pre))
      with (Z.of_nat (S (List.length T))) by lia;
    cbn [app]; rewrite rotate_drops; cbn [bind];
    replace (pre ++ T ++ e :: post) with (pre ++ (T ++ [e]) ++ post)
      by (rewrite <- app_assoc; reflexivity);
    rewrite HT; unfold arg_at; cbn [argv set_argv optind first];
    rewrite Hi, Hf;
    (replace (Z.of_nat (List.length pre) <? 0) with false
       by (symmetry; apply Z.ltb_ge; lia));
    rewrite Nat2Z.id, nth_error_app2 by lia;
    rewrite Nat.sub_diag.
  - cbn [app nth_error bind ptr_eqb]. rewrite cptr_eqb_refl. cbn [negb].
    rewrite app_nil_r. reflexivity.
  - cbn [app nth_error bind].
    assert (C : ptr_eqb q (Some x) = false).
    { destruct q as [y|]; simpl; [|reflexivity].
      destruct (cptr_eqb y x) eqn:E; [|reflexivity].
      apply cptr_eqb_eq in E. subst y. exfalso. apply Hu. left; reflexivity. }
    rewrite C. cbn [negb].
    destruct (snoc_eq_cons_app T e q u (Some x :: w) HT) as (T' & -> & HT');
      [discriminate|].
    transitivity
      (Ret (set_argv
              (set_argv s (pre ++ (q :: u ++ Some x :: w) ++ post))
              (pre ++ (Some x :: (w ++ [q]) ++ u) ++ post))).
    + apply (IH (w ++ [q]) (u ++ Some x :: w) q k); auto.
      * intros Hin. apply Hu. right; exact Hin.
      * rewrite <- !app_assoc. reflexivity.
      * rewrite !length_app. simpl.
        assert (L : List.length (T' ++ [e])
                    = List.length (u ++ Some x :: w))
          by (now rewrite HT').
        rewrite !length_app in L. simpl in L, Hc. simpl. lia.
      * simpl in Hfuel. lia.
    + assert (EL : pre ++ (Some x :: (w ++ [q]) ++ u) ++ post
                   = pre ++ (Some x :: w ++ q :: u) ++ post)
        by (simpl; rewrite <- !app_assoc; reflexivity).
      rewrite EL. reflexivity.
Qed.

(** *** The terminator "--" *)

(** X9: at the element "--" [getopt] returns -1 with the scan index one
    past the marker, and when operands have been moved behind the marker
    earlier in the pass (the anchor [x] is set) it puts them back in front of
    what followed the marker: the window [R ++ x :: M] after the marker is
    left as [x :: M ++ R].  The anchor must not occur a second time in the
    window. *)
Theorem double_dash_restores_operands (fuel : nat) (argc : Z)
    (optstring : string) (s s1 : state) (p x : cptr)
    (pre R M post : list (option cptr)) :
  reaches mem fuel argc s s1 p ->
  load mem p = "--"%string ->
  argv s1 = pre ++ Some p :: (R ++ Some x :: M) ++ post ->
  optind s1 = Z.of_nat (List.length pre) ->
  argc = Z.of_nat (List.length pre + 1 + List.length (R ++ Some x :: M)) ->
  first s1 = Some x ->
  ~ In (Some x) R ->
  ~ In (Some x) M ->
  (List.length R + List.length M < fuel)%nat ->
  exists s' : state,
    getopt mem fuel argc optstring s = Ret (-1, s')
    /\ argv s' = pre ++ Some p :: (Some x :: M ++ R) ++ post
    /\ optind s' = optind s1 + 1
    /\ first s' = None /\ optcursor s' = None.
Proof.
  intros Hr Hl Ha Hi Hc Hf HR HM Hfuel.
  rewrite (getopt_reaches _ _ _ _ _ _ _ Hr).
  unfold getopt_at. rewrite Hl.
  change (String.eqb "--" "-") with false.
  change (String.eqb "--" "--") with true. cbn iota.
  cbn [first set_optind]. rewrite Hf. cbn [is_null negb].
  assert (Ha2 : forall e T,
             R ++ Some x :: M = e :: T ->
             argv (set_optind s1 (optind s1 + 1))
             = (pre ++ [Some p]) ++ (e :: T) ++ post).
  { intros e T E. simpl. rewrite Ha, E, <- app_assoc. reflexivity. }
  assert (Hi2 : optind (set_optind s1 (optind s1 + 1))
                = Z.of_nat (List.length (pre ++ [Some p]))).
  { simpl. rewrite Hi, length_app. simpl. lia. }
  assert (Hgo : rotate_to_anchor fuel argc (set_optind s1 (optind s1 + 1))
                = Ret (set_argv (set_optind s1 (optind s1 + 1))
                         ((pre ++ [Some p]) ++ (Some x :: M ++ R) ++ post))).
  { destruct R as [|e R'].
    - replace (Some x :: M ++ []) with (Some x :: [] ++ M)
        by (simpl; rewrite app_nil_r; reflexivity).
      apply (rotate_to_anchor_moves argc (pre ++ [Some p]) post x
               M [] M (Some x)); auto;
        try (rewrite Hc; rewrite !length_app; simpl; lia);
        try (simpl in Hfuel; lia).
    - replace (Some x :: M ++ e :: R') with (Some x :: (M ++ [e]) ++ R')
        by (simpl; rewrite <- app_assoc; reflexivity).
      apply (rotate_to_anchor_moves argc (pre ++ [Some p]) post x
               R' (M ++ [e]) (R' ++ Some x :: M) e); auto;
        try (intros Hin; apply HR; right; exact Hin);
        try (rewrite <- app_assoc; reflexivity);
        try (rewrite Hc; rewrite !length_app; simpl; rewrite ?length_app;
             simpl; lia);
        try (simpl in Hfuel; lia). }
  rewrite Hgo. cbn [bind]. unfold no_more_optchars.
  eexists. split; [reflexivity|]. simpl.
  rewrite <- app_assoc. simpl. repeat split; reflexivity.
Qed.

(** *** Values of short options *)

Lemma pick_cursor_fields (p : cptr) (s : state) :
  argv (pick_cursor mem p s) = argv s
  /\ optind (pick_cursor mem p s) = optind s
  /\ opterr (pick_cursor mem p s) = opterr s
  /\ first (pick_cursor mem p s) = first s
  /\ optarg (pick_cursor mem p s) = optarg s.
Proof.
  unfold pick_cursor. destruct (cursor_idle mem s); simpl; auto.
Qed.

(** X10: an option declared with one or two colons whose character is not
    the last one of its element takes the rest of the element as its value:
    [getopt] returns the character, [optarg] points just behind it, the
    cursor is cleared so that the rest is not read as further options, and
    the scan index moves to the next element. *)
Theorem attached_value (fuel : nat) (argc : Z) (optstring : string)
    (s s1 : state) (p c : cptr) (d : nat) :
  reaches mem fuel argc s s1 p ->
  load mem p <> "-"%string ->
  load mem p <> "--"%string ->
  optcursor (pick_cursor mem p s1) = Some c ->
  strchr optstring (deref mem c) = Some d ->
  char_at optstring (d + 1) = ":"%char ->
  deref mem (ptr_add c 1) <> zero ->
  exists s' : state,
    getopt mem fuel argc optstring s = Ret (int_of_char (deref mem c), s')
    /\ optarg s' = Some (ptr_add c 1)
    /\ optcursor s' = None
    /\ optind s' = optind s1 + 1
    /\ argv s' = argv s1.
Proof.
  intros Hr Hn1 Hn2 Hc Hd Hreq Hrest.
  rewrite (getopt_reaches _ _ _ _ _ _ _ Hr).
  unfold getopt_at.
  apply String.eqb_neq in Hn1, Hn2. rewrite Hn1, Hn2.
  unfold short_option. rewrite Hc, Hd, Hreq, Ascii.eqb_refl.
  apply Ascii.eqb_neq in Hrest. rewrite Hrest.
  destruct (pick_cursor_fields p s1) as (E1 & E2 & _).
  unfold advance. simpl. eexists. split; [reflexivity|]. simpl.
  rewrite E1, E2. repeat split.
Qed.

(** X11: an option declared with two colons (optional value) whose
    character is the last one of its element has no value: [getopt] returns
    the character with [optarg] NULL and moves the scan index by one, so the
    next element is not consumed. *)
Theorem optional_value_absent (fuel : nat) (argc : Z) (optstring : string)
    (s s1 : state) (p c : cptr) (d : nat) :
  reaches mem fuel argc s s1 p ->
  load mem p <> "-"%string ->
  load mem p <> "--"%string ->
  optcursor (pick_cursor mem p s1) = Some c ->
  strchr optstring (deref mem c) = Some d ->
  char_at optstring (d + 1) = ":"%char ->
  char_at optstring (d + 2) = ":"%char ->
  deref mem (ptr_add c 1) = zero ->
  exists s' : state,
    getopt mem fuel argc optstring s = Ret (int_of_char (deref mem c), s')
    /\ optarg s' = None
    /\ optcursor s' = None
    /\ optind s' = optind s1 + 1
    /\ argv s' = argv s1.
Proof.
  intros Hr Hn1 Hn2 Hc Hd Hreq Hopt Hend.
  rewrite (getopt_reaches _ _ _ _ _ _ _ Hr).
  unfold getopt_at.
  apply String.eqb_neq in Hn1, Hn2. rewrite Hn1, Hn2.
  unfold short_option. rewrite Hc, Hd, Hreq, Hopt, Hend, !Ascii.eqb_refl.
  destruct (pick_cursor_fields p s1) as (E1 & E2 & _).
  unfold advance. simpl. eexists. split; [reflexivity|]. simpl.
  rewrite E1, E2. repeat split.
Qed.

(** *** Clusters of options without value *)

Lemma ptr_add_add (p : cptr) (a b : nat) :
  ptr_add (ptr_add p a) b = ptr_add p (a + b).
Proof. unfold ptr_add; simpl. f_equal. lia. Qed.

Lemma sdrop_cons (k : nat) (s : string) (c : ascii) (r : string) :
  sdrop k s = String c r -> char_at s k = c /\ sdrop (k + 1) s = r.
Proof.
  intros H. split.
  - replace k with (k + 0)%nat by lia. rewrite char_at_sdrop, H. reflexivity.
  - rewrite <- sdrop_sdrop, H. reflexivity.
Qed.

Lemma sdrop_nil_char (k : nat) (s : string) :
  sdrop k s = EmptyString -> char_at s k = zero.
Proof.
  intros H. replace k with (k + 0)%nat by lia.
  rewrite char_at_sdrop, H. reflexivity.
Qed.

(** One call at an option character that is declared without value. *)
Lemma plain_flag_call (fuel : nat) (argc : Z) (optstring : string)
    (s s1 : state) (p c : cptr) :
  reaches mem fuel argc s s1 p ->
  load mem p <> "-"%string ->
  load mem p <> "--"%string ->
  optcursor (pick_cursor mem p s1) = Some c ->
  plain_flag optstring (deref mem c) = true ->
  getopt mem fuel argc optstring s
  = Ret (int_of_char (deref mem c),
         let t := set_optcursor
                    (set_optopt (pick_cursor mem p s1)
                                (int_of_char (deref mem c)))
                    (Some (ptr_add c 1)) in
         if Ascii.eqb (deref mem (ptr_add c 1)) zero
         then set_optind t (optind t + 1) else t).
Proof.
  intros Hr Hn1 Hn2 Hc Hp.
  rewrite (getopt_reaches _ _ _ _ _ _ _ Hr).
  unfold getopt_at.
  apply String.eqb_neq in Hn1, Hn2. rewrite Hn1, Hn2.
  unfold short_option. rewrite Hc.
  unfold plain_flag in Hp.
  destruct (strchr optstring (deref mem c)) as [d|]; [|discriminate].
  apply andb_true_iff in Hp. destruct Hp as [_ Hp].
  apply negb_true_iff in Hp. rewrite Hp.
  unfold advance. cbn [optcursor set_optcursor set_optopt]. rewrite Hc.
  destruct (Ascii.eqb (deref mem (ptr_add c 1)) zero); reflexivity.
Qed.

Lemma cluster_from (fuel : nat) (argc : Z) (optstring : string)
    (p : cptr) (a : list (option cptr)) (i : Z) :
  i < argc ->
  1 <= i ->
  nth_error a (Z.to_nat i) = Some (Some p) ->
  char_at (load mem p) 0 = "-"%char ->
  load mem p <> "-"%string ->
  load mem p <> "--"%string ->
  forall (rest : string) (k : nat) (t : state),
    rest <> EmptyString ->
    sdrop k (load mem p) = rest ->
    plain_flags optstring rest = true ->
    argv t = a ->
    Z.max 1 (optind t) = i ->
    optcursor (pick_cursor mem p (enter t)) = Some (ptr_add p k) ->
    exists t' : state,
      getopt_run mem (String.length rest) fuel argc optstring t
      = Ret (map int_of_char (list_ascii_of_string rest), t')
      /\ optind t' = i + 1
      /\ argv t' = a.
Proof.
  intros Hlt Hi1 Hnth Hd Hn1 Hn2.
  induction rest as [|c rest IH]; intros k t Hne Hk Hp Ha Hi Hc;
    [congruence|].
  destruct (enter_fields t) as (F1 & F2 & F3 & F4 & F5 & F6 & F7 & F8).
  assert (Hie : optind (enter t) = i) by (rewrite enter_optind; exact Hi).
  assert (Hr : reaches mem fuel argc t (enter t) p).
  { apply reaches_option; auto.
    - lia.
    - unfold arg_at. rewrite Hie, F1, Ha.
      assert (E : (i <? 0) = false) by (apply Z.ltb_ge; lia).
      rewrite E, Hnth. reflexivity. }
  destruct (sdrop_cons _ _ _ _ Hk) as [Hck Hk'].
  assert (Hdc : deref mem (ptr_add p k) = c)
    by (rewrite deref_add; exact Hck).
  simpl in Hp. apply andb_true_iff in Hp. destruct Hp as [Hpc Hprest].
  cbn [String.length getopt_run].
  rewrite (plain_flag_call fuel argc optstring t (enter t) p (ptr_add p k)
             Hr Hn1 Hn2 Hc) by (rewrite Hdc; exact Hpc).
  cbn [bind fst snd]. rewrite Hdc.
  destruct (pick_cursor_fields p (enter t)) as (P1 & P2 & _).
  rewrite ptr_add_add, deref_add.
  destruct rest as [|c' rest'].
  - rewrite (sdrop_nil_char _ _ Hk'), Ascii.eqb_refl.
    cbn [String.length getopt_run bind fst snd list_ascii_of_string map].
    eexists. split; [reflexivity|]. simpl. rewrite P1, P2, Hie, F1.
    split; [reflexivity|exact Ha].
  - destruct (sdrop_cons _ _ _ _ Hk') as [Hc' _].
    rewrite Hc'.
    assert (Hz : Ascii.eqb c' zero = false).
    { simpl in Hprest. apply andb_true_iff in Hprest.
      destruct Hprest as [Hpc' _]. unfold plain_flag in Hpc'.
      destruct (strchr optstring c'); [|discriminate].
      apply andb_true_iff in Hpc'. destruct Hpc' as [Hpc' _].
      now apply negb_true_iff in Hpc'. }
    rewrite Hz.
    set (t1 := set_optcursor
                 (set_optopt (pick_cursor mem p (enter t))
                             (int_of_char c))
                 (Some (ptr_add p (k + 1)))).
    destruct (IH (k + 1)%nat t1) as (t' & Hrun & Hi' & Ha').
    + discriminate.
    + exact Hk'.
    + exact Hprest.
    + unfold t1. simpl. rewrite P1, F1. exact Ha.
    + unfold t1. simpl. rewrite P2, Hie. lia.
    + unfold pick_cursor, cursor_idle.
      destruct (enter_fields t1) as (_ & _ & _ & _ & G5 & _).
      rewrite G5. unfold t1 at 1 2. cbn [optcursor set_optcursor].
      rewrite deref_add, Hc', Hz. rewrite G5. reflexivity.
    + rewrite Hrun. cbn [bind fst snd].
      eexists. split; [reflexivity|]. auto.
Qed.

(** X12: a cluster is read one option per call.  When the element under
    the scan index is '-' followed by characters that the specification all
    declares without value, and no cursor is active, then as many calls of
    [getopt] as there are characters return these characters in order; the
    scan index stays on the element until the last of them and is then one
    further, and the array is not touched. *)
Theorem cluster_is_read_in_order (fuel : nat) (argc : Z)
    (optstring : string) (s : state) (p : cptr) (cs : string) :
  Z.max 1 (optind s) < argc ->
  arg_at s (Z.max 1 (optind s)) = Ret (Some p) ->
  load mem p = String "-" cs ->
  cs <> EmptyString ->
  cs <> "-"%string ->
  plain_flags optstring cs = true ->
  cursor_idle mem s = true ->
  exists s' : state,
    getopt_run mem (String.length cs) fuel argc optstring s
    = Ret (map int_of_char (list_ascii_of_string cs), s')
    /\ optind s' = Z.max 1 (optind s) + 1
    /\ argv s' = argv s.
Proof.
  intros Hlt Hat Hl Hne Hnd Hp Hidle.
  apply (cluster_from fuel argc optstring p (argv s) (Z.max 1 (optind s)))
    with (k := 1%nat); auto; try lia.
  - unfold arg_at in Hat.
    destruct (Z.max 1 (optind s) <? 0); [discriminate|].
    destruct (nth_error (argv s) (Z.to_nat (Z.max 1 (optind s))))
      as [e|]; inversion Hat; reflexivity.
  - rewrite Hl. reflexivity.
  - rewrite Hl. intros E. inversion E. congruence.
  - rewrite Hl. intros E. inversion E. congruence.
  - rewrite Hl. reflexivity.
  - unfold pick_cursor.
    assert (E : cursor_idle mem (enter s) = true).
    { unfold cursor_idle in *.
      destruct (enter_fields s) as (_ & _ & _ & _ & G5 & _).
      rewrite G5. exact Hidle. }
    rewrite E. reflexivity.
Qed.

(** *** A whole pass over flags and operands *)

Lemma arg_at_window (t : state) (pre post : list (option cptr))
    (e : option cptr) (T : list (option cptr)) :
  argv t = pre ++ (e :: T) ++ post ->
  arg_at t (Z.of_nat (List.length pre)) = Ret e.
Proof.
  intros Ha. unfold arg_at. rewrite Ha.
  replace (Z.of_nat (List.length pre) <? 0) with false
    by (symmetry; apply Z.ltb_ge; lia).
  rewrite Nat2Z.id, nth_error_app2, Nat.sub_diag by lia. reflexivity.
Qed.

Lemma operand_prefix (R : list cptr) :
  exists ops rest : list cptr,
    R = ops ++ rest
    /\ Forall (fun q => starts_with_dash mem q = false) ops
    /\ (rest = []
        \/ exists f rest', rest = f :: rest'
                           /\ starts_with_dash mem f = true).
Proof.
  induction R as [|r R IH].
  - exists [], []. auto.
  - destruct (starts_with_dash mem r) eqn:D.
    + exists [], (r :: R). split; [reflexivity|]. split; [constructor|].
      right. exists r, R. auto.
    + destruct IH as (ops & rest & -> & Hops & Hrest).
      exists (r :: ops), rest. split; [reflexivity|]. split; [|exact Hrest].
      constructor; assumption.
Qed.

Lemma filter_operands_dash (l : list cptr) :
  Forall (fun q => starts_with_dash mem q = false) l ->
  filter (starts_with_dash mem) l = []
  /\ filter (fun q => negb (starts_with_dash mem q)) l = l.
Proof.
  induction 1 as [|q l Hq Hl [IH1 IH2]]; simpl; [auto|].
  rewrite Hq. simpl. rewrite IH1, IH2. auto.
Qed.

Lemma operand_deref (q : cptr) :
  starts_with_dash mem q = false -> deref mem q <> "-"%char.
Proof. unfold starts_with_dash. intros H. now apply Ascii.eqb_neq. Qed.

Lemma dash_deref (q : cptr) :
  starts_with_dash mem q = true -> deref mem q = "-"%char.
Proof. unfold starts_with_dash. intros H. now apply Ascii.eqb_eq. Qed.

(** What [flag_element] says about the text of the element. *)
Lemma flag_element_text (optstring : string) (p : cptr) :
  flag_element mem optstring p = true ->
  exists c : ascii,
    load mem p = String "-" (String c EmptyString)
    /\ c <> "-"%char
    /\ plain_flag optstring c = true.
Proof.
  unfold flag_element. intros H.
  destruct (load mem p) as [|d [|c [|x r]]]; try discriminate.
  apply andb_true_iff in H. destruct H as [H H3].
  apply andb_true_iff in H. destruct H as [H1 H2].
  apply Ascii.eqb_eq in H1. subst d.
  apply negb_true_iff in H2. apply Ascii.eqb_neq in H2.
  exists c. auto.
Qed.

(** One call at an element "-c": the character is returned, the scan index
    moves on, and the cursor is left at the end of the element. *)
Lemma flag_element_call (fuel : nat) (argc : Z) (optstring : string)
    (t s2 : state) (f : cptr) :
  reaches mem fuel argc t s2 f ->
  flag_element mem optstring f = true ->
  cursor_idle mem s2 = true ->
  exists t1 : state,
    getopt mem fuel argc optstring t = Ret (flag_char mem f, t1)
    /\ argv t1 = argv s2
    /\ optind t1 = optind s2 + 1
    /\ first t1 = first s2
    /\ cursor_idle mem t1 = true.
Proof.
  intros Hr Hf Hidle.
  destruct (flag_element_text _ _ Hf) as (c & Hl & Hc & Hp).
  assert (Hcur : optcursor (pick_cursor mem f s2) = Some (ptr_add f 1)).
  { unfold pick_cursor. rewrite Hidle. reflexivity. }
  assert (Hd : deref mem (ptr_add f 1) = c)
    by (rewrite deref_add, Hl; reflexivity).
  rewrite (plain_flag_call fuel argc optstring t s2 f (ptr_add f 1) Hr);
    auto.
  - rewrite Hd, ptr_add_add, deref_add, Hl.
    change (char_at (String "-" (String c EmptyString)) (1 + 1)) with zero.
    rewrite Ascii.eqb_refl. cbn zeta.
    eexists. split.
    + unfold flag_char. rewrite Hl. reflexivity.
    + destruct (pick_cursor_fields f s2) as (P1 & P2 & _ & P4 & _).
      simpl. rewrite P1, P2, P4. repeat split.
      unfold cursor_idle. simpl. rewrite deref_add, Hl. reflexivity.
  - rewrite Hl. discriminate.
  - rewrite Hl. intros E. inversion E. congruence.
  - rewrite Hd. exact Hp.
Qed.

Lemma cycle_shape (R M T : list cptr) (e : cptr) :
  R ++ M = e :: T ->
  NoDup (R ++ M) ->
  exists (x : cptr) (u w : list cptr),
    T ++ [e] = u ++ x :: w
    /\ M ++ R = x :: w ++ u
    /\ ~ In x u
    /\ (hd_error M = Some x \/ (hd_error M = None /\ e = x))
    /\ (forall q, In q u -> In q (R ++ M)).
Proof.
  intros E Hnd. destruct M as [|m M'].
  - rewrite app_nil_r in *. subst R.
    exists e, T, []. simpl. repeat split; auto.
    inversion Hnd; assumption.
  - destruct R as [|r R'].
    + simpl in E. inversion E; subst.
      exists e, T, []. simpl. rewrite app_nil_r. repeat split; auto.
      inversion Hnd; assumption.
    + simpl in E. inversion E; subst.
      exists m, R', (M' ++ [e]). simpl.
      rewrite <- !app_assoc. simpl. repeat split; auto.
      * simpl in Hnd. inversion Hnd as [|? ? _ Hnd']; subst.
        apply NoDup_remove_2 in Hnd'. intros Hin. apply Hnd'.
        apply in_or_app. left; exact Hin.
      * intros q Hq. right. apply in_or_app. left; exact Hq.
Qed.

(** The call that ends a pass: only operands are left in the window. *)
Lemma end_of_pass (fuel : nat) (argc : Z) (optstring : string)
    (pre post : list (option cptr)) (R M : list cptr) (t : state) :
  argv t = pre ++ map Some (R ++ M) ++ post ->
  Z.max 1 (optind t) = Z.of_nat (List.length pre) ->
  argc = Z.of_nat (List.length pre + List.length (R ++ M)) ->
  Forall (fun q => starts_with_dash mem q = false) (R ++ M) ->
  NoDup (R ++ M) ->
  first t = hd_error M ->
  (List.length (R ++ M) < fuel)%nat ->
  exists t' : state,
    getopt mem fuel argc optstring t = Ret (-1, t')
    /\ argv t' = pre ++ map Some (M ++ R) ++ post
    /\ optind t' = Z.of_nat (List.length pre)
    /\ first t' = None /\ optcursor t' = None.
Proof.
  intros Ha Hi Hc Hops Hnd Hf Hfuel.
  destruct (enter_fields t) as (F1 & _ & _ & _ & _ & F6 & _).
  assert (Hie : optind (enter t) = Z.of_nat (List.length pre))
    by (rewrite enter_optind; exact Hi).
  unfold getopt, no_more_optchars.
  destruct (R ++ M) as [|e T] eqn:EW.
  - (* nothing is left *)
    assert (M = [] /\ R = []) as [-> ->].
    { destruct R; [|discriminate]. destruct M; [|discriminate]. auto. }
    assert (E : (argc <=? optind (enter t)) = true)
      by (apply Z.leb_le; simpl in Hc; lia).
    rewrite E. eexists. split; [reflexivity|]. simpl.
    rewrite F1, Hie. auto.
  - assert (E : (argc <=? optind (enter t)) = false)
      by (apply Z.leb_gt; simpl in Hc; lia).
    rewrite E.
    rewrite Hie, (arg_at_argv (enter t) t _ F1),
      (arg_at_window t pre post (Some e) (map Some T) Ha).
    cbn [bind]. unfold permute.
    assert (He : deref mem e <> "-"%char).
    { apply operand_deref. inversion Hops; assumption. }
    pose proof He as He'. apply Ascii.eqb_neq in He'.
    rewrite He'. cbn [negb]. rewrite Hie.
    destruct T as [|e2 T'].
    + (* one operand is left *)
      assert (E1 : (argc - Z.of_nat (List.length pre) <=? 1) = true)
        by (apply Z.leb_le; simpl in Hc; lia).
      rewrite E1. cbn [bind].
      assert (M ++ R = [e]).
      { destruct R as [|r [|r2 R']]; destruct M as [|m [|m2 M']];
          simpl in EW; try discriminate; inversion EW; reflexivity. }
      eexists. split; [reflexivity|]. simpl. rewrite F1, Hie, Ha, H. auto.
    + assert (E1 : (argc - Z.of_nat (List.length pre) <=? 1) = false)
        by (apply Z.leb_gt; simpl in Hc; lia).
      rewrite E1.
      assert (Hnd' : NoDup (R ++ M)) by (rewrite EW; exact Hnd).
      destruct (cycle_shape R M (e2 :: T') e EW Hnd')
        as (x & u & w & HT & HMR & Hxu & Hx & Hsub).
      set (s1 := if is_null (first (enter t))
                 then set_first (enter t) (Some e) else enter t).
      assert (Hs1 : argv s1 = argv t /\ optind s1 = optind (enter t)
                    /\ first s1 = Some x).
      { unfold s1. rewrite F6, Hf.
        destruct Hx as [Hx|[Hx ->]]; rewrite Hx; cbn [is_null];
          repeat split; cbn [argv optind first set_first]; auto;
          rewrite F6, Hf; exact Hx. }
      destruct Hs1 as (S1 & S2 & S3).
      assert (P1 : Forall (fun q => deref mem q <> "-"%char
                                   /\ Some x <> Some q) u).
      { apply Forall_forall. intros q Hq. split.
        - apply operand_deref.
          rewrite Forall_forall in Hops. apply Hops.
          rewrite <- EW. apply Hsub. exact Hq.
        - intros Eq. inversion Eq; subst q. contradiction. }
      assert (P3 : argv s1 = pre ++ map Some (e :: e2 :: T') ++ post)
        by (rewrite S1, Ha; reflexivity).
      assert (P4 : optind s1 = Z.of_nat (List.length pre))
        by (rewrite S2; exact Hie).
      assert (P6 : argc = Z.of_nat (List.length pre
                                    + S (List.length (e2 :: T'))))
        by (rewrite Hc; reflexivity).
      assert (P7 : (List.length u < fuel)%nat).
      { assert (L : List.length ((e2 :: T') ++ [e])
                    = List.length (u ++ x :: w)) by (now rewrite HT).
        rewrite !length_app in L. simpl in L, Hfuel. lia. }
      rewrite (rotate_to_option_moves argc pre post x (Some x)
                 (or_intror eq_refl) u w (e2 :: T') e fuel s1
                 P1 HT P3 P4 S3 P6 P7).
      cbn [bind]. unfold arg_at. cbn [argv set_argv optind first].
      rewrite S2, Hie, S3.
      replace (Z.of_nat (List.length pre) <? 0) with false
        by (symmetry; apply Z.ltb_ge; lia).
      rewrite Nat2Z.id, nth_error_app2, Nat.sub_diag by lia.
      cbn [map app nth_error bind ptr_eqb]. rewrite cptr_eqb_refl.
      eexists. split; [reflexivity|]. simpl.
      rewrite S2, Hie, HMR. auto.
Qed.

Lemma nodup_app_disjoint {A : Type} (l1 l2 : list A) (x : A) :
  NoDup (l1 ++ l2) -> In x l1 -> In x l2 -> False.
Proof.
  induction l1 as [|a l1 IH]; intros Hnd H1 H2; [contradiction|].
  simpl in Hnd. inversion Hnd as [|? ? Hna Hnd']; subst.
  destruct H1 as [->|H1].
  - apply Hna. apply in_or_app. right; exact H2.
  - apply IH; auto.
Qed.

(** The call that finds an option behind operands: the operands in front of
    it are moved to the end of the window and the first of them becomes the
    anchor, unless there is one already. *)
Lemma reach_flag (fuel : nat) (argc : Z) (pre post : list (option cptr))
    (ops : list cptr) (f : cptr) (tailw : list cptr) (t : state) :
  argv t = pre ++ map Some (ops ++ f :: tailw) ++ post ->
  Z.max 1 (optind t) = Z.of_nat (List.length pre) ->
  argc = Z.of_nat (List.length pre + List.length (ops ++ f :: tailw)) ->
  Forall (fun q => starts_with_dash mem q = false) ops ->
  starts_with_dash mem f = true ->
  NoDup (ops ++ f :: tailw) ->
  (first t = None \/ exists m, first t = Some m /\ In m tailw) ->
  (List.length ops < fuel)%nat ->
  exists s2 : state,
    reaches mem fuel argc t s2 f
    /\ argv s2 = pre ++ map Some (f :: tailw ++ ops) ++ post
    /\ optind s2 = Z.of_nat (List.length pre)
    /\ first s2 = match ops, first t with
                  | r :: _, None => Some r
                  | _, a => a
                  end
    /\ optcursor s2 = optcursor t.
Proof.
  intros Ha Hi Hc Hops Hf Hnd Hfirst Hfuel.
  destruct (enter_fields t) as (F1 & _ & _ & _ & F5 & F6 & _).
  assert (Hie : optind (enter t) = Z.of_nat (List.length pre))
    by (rewrite enter_optind; exact Hi).
  assert (Hlt : optind (enter t) < argc).
  { rewrite Hie, Hc, length_app. simpl. lia. }
  destruct ops as [|r ops'].
  - (* the option is under the scan index *)
    exists (enter t). split.
    + apply reaches_option; auto.
      * rewrite Hie, (arg_at_argv (enter t) t _ F1).
        apply (arg_at_window t pre post (Some f) (map Some tailw)).
        exact Ha.
      * rewrite <- deref_load. apply dash_deref; exact Hf.
    + rewrite F1, Ha, app_nil_r. simpl. rewrite F6, F5.
      repeat split; auto.
  - set (s1 := if is_null (first (enter t))
               then set_first (enter t) (Some r) else enter t).
    set (anchor := match first t with Some m => Some m | None => Some r end).
    assert (Hs1 : argv s1 = argv t /\ optind s1 = optind (enter t)
                  /\ first s1 = anchor /\ optcursor s1 = optcursor t).
    { unfold s1, anchor. rewrite F6.
      destruct (first t); cbn [is_null]; repeat split;
        cbn [argv optind first optcursor set_first]; auto. }
    destruct Hs1 as (S1 & S2 & S3 & S4).
    assert (Hr : deref mem r <> "-"%char).
    { apply operand_deref. inversion Hops; assumption. }
    assert (Hnd2 : ~ In r ops' /\ ~ In r (f :: tailw)
                   /\ NoDup (ops' ++ f :: tailw)).
    { simpl in Hnd. inversion Hnd as [|? ? Hnr Hnd']; subst.
      repeat split; auto; intros Hin; apply Hnr; apply in_or_app; auto. }
    destruct Hnd2 as (Hr1 & Hr2 & Hnd').
    assert (Hanchor : forall q, anchor = Some q ->
                                q = r \/ In q tailw).
    { unfold anchor. intros q Hq.
      destruct Hfirst as [Hn|(m & Hm & Hin)].
      - rewrite Hn in Hq. inversion Hq. auto.
      - rewrite Hm in Hq. inversion Hq; subst. auto. }
    assert (P1 : Forall (fun q => deref mem q <> "-"%char
                                 /\ anchor <> Some q) ops').
    { apply Forall_forall. intros q Hq. split.
      - apply operand_deref. inversion Hops as [|? ? _ Hops']; subst.
        rewrite Forall_forall in Hops'. apply Hops'. exact Hq.
      - intros Eq. destruct (Hanchor q Eq) as [->|Hin]; [contradiction|].
        apply (nodup_app_disjoint ops' (f :: tailw) q Hnd' Hq).
        right; exact Hin. }
    assert (HT : (ops' ++ f :: tailw) ++ [r]
                 = ops' ++ f :: (tailw ++ [r]))
      by (rewrite <- app_assoc; reflexivity).
    assert (P3 : argv s1 = pre ++ map Some (r :: ops' ++ f :: tailw) ++ post)
      by (rewrite S1, Ha; reflexivity).
    assert (P4 : optind s1 = Z.of_nat (List.length pre))
      by (rewrite S2; exact Hie).
    assert (P6 : argc = Z.of_nat (List.length pre
                                  + S (List.length (ops' ++ f :: tailw))))
      by (rewrite Hc; reflexivity).
    assert (P7 : (List.length ops' < fuel)%nat) by (simpl in Hfuel; lia).
    pose proof (rotate_to_option_moves argc pre post f anchor
                  (or_introl (dash_deref f Hf)) ops' (tailw ++ [r])
                  (ops' ++ f :: tailw) r fuel s1 P1 HT P3 P4 S3 P6 P7)
      as Hloop.
    assert (Hfa : ptr_eqb (Some f) anchor = false).
    { destruct anchor as [q|] eqn:Eq; simpl; [|reflexivity].
      destruct (cptr_eqb f q) eqn:E; [|reflexivity].
      apply cptr_eqb_eq in E. subst q.
      destruct (Hanchor f eq_refl) as [->|Hin].
      - exfalso. apply Hr2. left; reflexivity.
      - exfalso. apply NoDup_remove_2 in Hnd'. apply Hnd'.
        apply in_or_app. right; exact Hin. }
    clear Hanchor.
    exists (set_argv s1 (pre ++ map Some (f :: (tailw ++ [r]) ++ ops') ++ post)).
    assert (Hat : arg_at (set_argv s1
                            (pre ++ map Some (f :: (tailw ++ [r]) ++ ops')
                                 ++ post))
                         (Z.of_nat (List.length pre))
                  = Ret (Some f)).
    { apply (arg_at_window _ pre post (Some f)
               (map Some ((tailw ++ [r]) ++ ops'))). reflexivity. }
    split.
    + split; [exact Hlt|]. exists r. split; [|split].
      * rewrite Hie, (arg_at_argv (enter t) t _ F1).
        apply (arg_at_window t pre post (Some r)
                 (map Some (ops' ++ f :: tailw))). exact Ha.
      * unfold permute. apply Ascii.eqb_neq in Hr. rewrite Hr. cbn [negb].
        assert (E1 : (argc - optind (enter t) <=? 1) = false).
        { apply Z.leb_gt. rewrite Hie, Hc. cbn [app List.length].
          rewrite length_app. cbn [List.length]. lia. }
        rewrite E1. fold s1. rewrite Hloop. cbn [bind].
        cbn [optind set_argv]. rewrite P4, Hat. cbn [bind first set_argv].
        rewrite S3, Hfa. reflexivity.
      * cbn [optind set_argv]. rewrite P4. exact Hat.
    + cbn [argv optind first optcursor set_argv].
      rewrite <- app_assoc. simpl.
      repeat split; auto.
Qed.

Lemma filter_flag_split (ops : list cptr) (f : cptr) (rest : list cptr) :
  Forall (fun q => starts_with_dash mem q = false) ops ->
  starts_with_dash mem f = true ->
  filter (starts_with_dash mem) (ops ++ f :: rest)
  = f :: filter (starts_with_dash mem) rest
  /\ filter (fun q => negb (starts_with_dash mem q)) (ops ++ f :: rest)
     = ops ++ filter (fun q => negb (starts_with_dash mem q)) rest.
Proof.
  intros Hops Hf. destruct (filter_operands_dash ops Hops) as [E1 E2].
  rewrite !filter_app, E1, E2. simpl. rewrite Hf. auto.
Qed.

Lemma pass_from (fuel : nat) (argc : Z) (optstring : string)
    (a0 : option cptr) (post : list (option cptr)) :
  forall (n : nat) (R : list cptr),
    (List.length R <= n)%nat ->
    forall (done M : list cptr) (t : state),
      argv t = (a0 :: map Some done) ++ map Some (R ++ M) ++ post ->
      Z.max 1 (optind t) = Z.of_nat (S (List.length done)) ->
      argc = Z.of_nat (S (List.length done) + List.length (R ++ M)) ->
      NoDup (R ++ M) ->
      Forall (fun q => starts_with_dash mem q = false) M ->
      Forall (fun q => starts_with_dash mem q = true ->
                       flag_element mem optstring q = true) R ->
      first t = hd_error M ->
      cursor_idle mem t = true ->
      (List.length (R ++ M) < fuel)%nat ->
      exists t' : state,
        getopt_run mem (S (List.length (filter (starts_with_dash mem) R)))
                   fuel argc optstring t
        = Ret (map (flag_char mem) (filter (starts_with_dash mem) R) ++ [-1],
               t')
        /\ argv t'
           = (a0 :: map Some (done ++ filter (starts_with_dash mem) R))
             ++ map Some
                  (M ++ filter (fun q => negb (starts_with_dash mem q)) R)
             ++ post
        /\ optind t'
           = Z.of_nat (S (List.length
                            (done ++ filter (starts_with_dash mem) R)))
        /\ first t' = None /\ optcursor t' = None.
Proof.
  induction n as [|n IH]; intros R HR done M t Ha Hi Hc Hnd HM HRf Hf
                                 Hidle Hfuel;
    destruct (operand_prefix R)
      as (ops & rest & -> & Hops & [-> | (f & rest' & -> & Hdf)]).
  - (* only operands are left *)
    rewrite app_nil_r in *.
    destruct (filter_operands_dash ops Hops) as [E1 E2]. rewrite E1, E2.
    assert (Hall : Forall (fun q => starts_with_dash mem q = false)
                          (ops ++ M)) by (apply Forall_app; auto).
    destruct (end_of_pass fuel argc optstring (a0 :: map Some done) post
                ops M t)
      as (t' & G & A' & I' & F' & C'); auto;
      try (cbn [List.length]; rewrite ?length_map; assumption).
    exists t'. cbn [List.length getopt_run map app]. rewrite G.
    cbn [bind fst snd]. rewrite !app_nil_r.
    cbn [List.length] in I'. rewrite length_map in I'. auto.
  - rewrite length_app in HR. simpl in HR. lia.
  - (* only operands are left *)
    rewrite app_nil_r in *.
    destruct (filter_operands_dash ops Hops) as [E1 E2]. rewrite E1, E2.
    assert (Hall : Forall (fun q => starts_with_dash mem q = false)
                          (ops ++ M)) by (apply Forall_app; auto).
    destruct (end_of_pass fuel argc optstring (a0 :: map Some done) post
                ops M t)
      as (t' & G & A' & I' & F' & C'); auto;
      try (cbn [List.length]; rewrite ?length_map; assumption).
    exists t'. cbn [List.length getopt_run map app]. rewrite G.
    cbn [bind fst snd]. rewrite !app_nil_r.
    cbn [List.length] in I'. rewrite length_map in I'. auto.
  - (* an option is left: it is found, read, and the pass goes on *)
    destruct (filter_flag_split ops f rest' Hops Hdf) as [E1 E2].
    rewrite E1, E2.
    assert (EW : (ops ++ f :: rest') ++ M = ops ++ f :: (rest' ++ M))
      by (rewrite <- app_assoc; reflexivity).
    rewrite EW in *.
    assert (Hpre : List.length (a0 :: map Some done)
                   = S (List.length done))
      by (cbn [List.length]; rewrite length_map; reflexivity).
    destruct (reach_flag fuel argc (a0 :: map Some done) post ops f
                (rest' ++ M) t)
      as (s2 & Hr & A2 & I2 & F2 & C2); auto;
      try (rewrite Hpre; assumption).
    { rewrite Hf. destruct M as [|m M']; simpl; [auto|].
      right. exists m. split; [reflexivity|].
      apply in_or_app. right. left; reflexivity. }
    { rewrite length_app in Hfuel. lia. }
    assert (Hfe : flag_element mem optstring f = true).
    { rewrite Forall_forall in HRf. apply HRf; [|exact Hdf].
      apply in_or_app. right. left; reflexivity. }
    assert (Hidle2 : cursor_idle mem s2 = true)
      by (unfold cursor_idle in *; rewrite C2; exact Hidle).
    destruct (flag_element_call fuel argc optstring t s2 f Hr Hfe Hidle2)
      as (t1 & G1 & A1 & I1 & F1 & C1).
    assert (HR' : (List.length rest' <= n)%nat).
    { rewrite length_app in HR. simpl in HR. lia. }
    destruct (IH rest' HR' (done ++ [f]) (M ++ ops) t1)
      as (t' & G & A' & I' & F' & C').
    + rewrite A1, A2.
      repeat (rewrite <- app_assoc || rewrite map_app || cbn [map app]).
      reflexivity.
    + rewrite I1, I2, Hpre, length_app. cbn [List.length]. lia.
    + rewrite Hc.
      repeat (rewrite length_app || cbn [List.length]). lia.
    + pose proof (NoDup_remove_1 _ _ _ Hnd) as Hnd1.
      apply (Permutation_NoDup (Permutation_app_comm ops (rest' ++ M)))
        in Hnd1.
      rewrite <- app_assoc in Hnd1. exact Hnd1.
    + apply Forall_app; auto.
    + rewrite Forall_forall in *. intros q Hq. apply HRf.
      apply in_or_app. right. right; exact Hq.
    + rewrite F1, F2, Hf.
      destruct ops as [|r ops']; destruct M as [|m M']; reflexivity.
    + exact C1.
    + repeat (rewrite length_app in Hfuel || cbn [List.length] in Hfuel).
      repeat (rewrite length_app || cbn [List.length]). lia.
    + exists t'. cbn [List.length getopt_run map app].
      rewrite G1. cbn [bind fst snd].
      cbn [List.length getopt_run] in G. rewrite G. cbn [bind fst snd].
      split; [reflexivity|].
      rewrite A', I'. rewrite <- !app_assoc. simpl.
      rewrite !length_app. simpl. repeat split; auto.
Qed.

(** X13: a whole pass sorts the options in front of the operands and keeps
    the order of both.  Take an array whose elements after the program name
    are distinct string objects, each either an operand (not starting with
    '-') or "-c" for an option character [c] declared without value, and start
    a fresh pass.  Then [getopt] returns the option characters in the order
    of their elements and then -1; after that the array holds the options
    first and the operands behind them, each group in its original order, the
    scan index is the index of the first operand, and cursor and anchor are
    NULL. *)
Theorem pass_sorts_options_before_operands (fuel : nat) (argc : Z)
    (optstring : string) (s : state) (a0 : option cptr) (els : list cptr)
    (post : list (option cptr)) :
  argv s = a0 :: map Some els ++ post ->
  argc = Z.of_nat (S (List.length els)) ->
  NoDup els ->
  Forall (fun q => starts_with_dash mem q = true ->
                   flag_element mem optstring q = true) els ->
  optind s <= 1 ->
  first s = None ->
  cursor_idle mem s = true ->
  (List.length els < fuel)%nat ->
  exists s' : state,
    getopt_run mem (S (List.length (filter (starts_with_dash mem) els)))
               fuel argc optstring s
    = Ret (map (flag_char mem) (filter (starts_with_dash mem) els) ++ [-1],
           s')
    /\ argv s'
       = a0 :: map Some
                 (filter (starts_with_dash mem) els
                  ++ filter (fun q => negb (starts_with_dash mem q)) els)
            ++ post
    /\ optind s'
       = Z.of_nat (S (List.length (filter (starts_with_dash mem) els)))
    /\ first s' = None /\ optcursor s' = None.
Proof.
  intros Ha Hc Hnd Hel Hi Hf Hidle Hfuel.
  destruct (pass_from fuel argc optstring a0 post (List.length els) els
              (le_n _) [] [] s)
    as (s' & G & A' & I' & F' & C'); rewrite ?app_nil_r; auto.
  - simpl. lia.
  - exists s'. split; [exact G|]. simpl in A', I'.
    rewrite A', I'. simpl. rewrite map_app, <- app_assoc. auto.
Qed.

(** *** Values of long options *)

Lemma long_call_selected (fuel : nat) (argc : Z) (optstring : string)
    (longopts : list long_option) (longindex : option nat)
    (s s1 : state) (p : cptr) (i : nat) (d : long_option) :
  reaches mem fuel argc s s1 p ->
  long_token (load mem p) ->
  find_match longopts 0 (sdrop 2 (load mem p))
             (strcspn (sdrop 2 (load mem p)) "=") None 0 = (Some i, 1) ->
  nth_error longopts i = Some d ->
  getopt_long mem fuel argc optstring longopts longindex s
  = (r <- long_value mem argc d p
            (match flag d with Some _ => 0 | None => val d end)
            (set_ints s1 (store_opt (flag d) (val d)
                            (store_opt longindex (Z.of_nat i) (ints s1)))) ;;
     Ret (fst r, set_optind (snd r) (optind (snd r) + 1))).
Proof.
  intros Hr Ht Hm Hd.
  rewrite (getopt_long_reaches _ _ _ _ _ _ _ _ _ Hr).
  rewrite (getopt_long_at_token _ _ _ _ _ _ _ _ Ht).
  rewrite (long_option_at_selected _ _ _ _ _ _ _ Hm).
  unfold resolve_match. rewrite Hd. reflexivity.
Qed.

(** X14: a long option that takes a value, required or optional, and is
    written "--name=value" gets as its value the text behind the first '=':
    [optarg] points there, the call returns 0 for a descriptor with a flag
    location and the descriptor's value otherwise, and the scan index moves
    by one. *)
Theorem long_value_after_equals (fuel : nat) (argc : Z)
    (optstring : string) (longopts : list long_option)
    (longindex : option nat) (s s1 : state) (p : cptr) (i : nat)
    (d : long_option) (k : nat) :
  reaches mem fuel argc s s1 p ->
  long_token (load mem p) ->
  find_match longopts 0 (sdrop 2 (load mem p))
             (strcspn (sdrop 2 (load mem p)) "=") None 0 = (Some i, 1) ->
  nth_error longopts i = Some d ->
  has_arg d <> no_argument ->
  strchr (load mem p) "=" = Some k ->
  exists s' : state,
    getopt_long mem fuel argc optstring longopts longindex s
    = Ret (match flag d with Some _ => 0 | None => val d end, s')
    /\ optarg s' = Some (ptr_add p (k + 1))
    /\ load mem (ptr_add p (k + 1)) = sdrop (k + 1) (load mem p)
    /\ optind s' = optind s1 + 1.
Proof.
  intros Hr Ht Hm Hd Hmode Hk.
  rewrite (long_call_selected _ _ _ _ _ _ _ _ _ _ Hr Ht Hm Hd).
  unfold long_value. rewrite Hk.
  destruct (has_arg d); [congruence| |]; simpl;
    (eexists; split; [reflexivity|]); simpl;
    (split; [reflexivity|]); (split; [apply load_add|reflexivity]).
Qed.

(** X15: a long option with a required value that is written without '='
    takes the next element as its value, when there is one: [optarg] is that
    element and the scan index moves by two. *)
Theorem long_value_from_next_element (fuel : nat) (argc : Z)
    (optstring : string) (longopts : list long_option)
    (longindex : option nat) (s s1 : state) (p q : cptr) (i : nat)
    (d : long_option) :
  reaches mem fuel argc s s1 p ->
  long_token (load mem p) ->
  find_match longopts 0 (sdrop 2 (load mem p))
             (strcspn (sdrop 2 (load mem p)) "=") None 0 = (Some i, 1) ->
  nth_error longopts i = Some d ->
  has_arg d = required_argument ->
  strchr (load mem p) "=" = None ->
  optind s1 + 1 < argc ->
  arg_at s1 (optind s1 + 1) = Ret (Some q) ->
  exists s' : state,
    getopt_long mem fuel argc optstring longopts longindex s
    = Ret (match flag d with Some _ => 0 | None => val d end, s')
    /\ optarg s' = Some q
    /\ optind s' = optind s1 + 2
    /\ argv s' = argv s1.
Proof.
  intros Hr Ht Hm Hd Hmode Hk Hnext Hq.
  rewrite (long_call_selected _ _ _ _ _ _ _ _ _ _ Hr Ht Hm Hd).
  unfold long_value. rewrite Hk, Hmode. simpl.
  apply Z.ltb_lt in Hnext. rewrite Hnext.
  unfold arg_at in *. simpl. simpl in Hq. rewrite Hq. simpl.
  eexists. split; [reflexivity|]. simpl. repeat split. lia.
Qed.

(** X16: a long option with an optional value that is written without '='
    has no value and does not consume the next element: [optarg] is NULL and
    the scan index moves by one. *)
Theorem long_optional_value_absent (fuel : nat) (argc : Z)
    (optstring : string) (longopts : list long_option)
    (longindex : option nat) (s s1 : state) (p : cptr) (i : nat)
    (d : long_option) :
  reaches mem fuel argc s s1 p ->
  long_token (load mem p) ->
  find_match longopts 0 (sdrop 2 (load mem p))
             (strcspn (sdrop 2 (load mem p)) "=") None 0 = (Some i, 1) ->
  nth_error longopts i = Some d ->
  has_arg d = optional_argument ->
  strchr (load mem p) "=" = None ->
  exists s' : state,
    getopt_long mem fuel argc optstring longopts longindex s
    = Ret (match flag d with Some _ => 0 | None => val d end, s')
    /\ optarg s' = None
    /\ optind s' = optind s1 + 1
    /\ argv s' = argv s1.
Proof.
  intros Hr Ht Hm Hd Hmode Hk.
  rewrite (long_call_selected _ _ _ _ _ _ _ _ _ _ Hr Ht Hm Hd).
  unfold long_value. rewrite Hk, Hmode. simpl.
  eexists. split; [reflexivity|]. simpl. repeat split.
Qed.

(** *** Flag locations *)

Lemma long_value_ints (argc : Z) (d : long_option) (p : cptr) (v : Z)
    (s : state) (r : Z) (s' : state) :
  long_value mem argc d p v s = Ret (r, s') -> ints s' = ints s.
Proof.
  unfold long_value. intros H. split_rets; reflexivity.
Qed.

Lemma long_option_at_ints (argc : Z) (longopts : list long_option)
    (longindex : option nat) (p : cptr) (s : state) (r : Z) (s' : state) :
  long_option_at mem argc longopts longindex p s = Ret (r, s') ->
  ints s' = ints s
  \/ exists (i : nat) (d : long_option),
       nth_error longopts i = Some d
       /\ ints s' = store_opt (flag d) (val d)
                      (store_opt longindex (Z.of_nat i) (ints s)).
Proof.
  unfold long_option_at, resolve_match, report_no_match, prog_name.
  intros H.
  destruct (find_match longopts 0 (sdrop 2 (load mem p))
              (strcspn (sdrop 2 (load mem p)) "=") None 0) as [m n].
  destruct (n =? 1).
  - destruct m as [i|]; [|discriminate].
    destruct (nth_error longopts i) as [d|] eqn:E; [|discriminate].
    right. exists i, d. split; [exact E|].
    match type of H with bind ?m _ = _ =>
      destruct m as [[r0 s0]| |] eqn:E0; simpl in H; try discriminate end.
    inversion H; subst. simpl.
    apply long_value_ints in E0. exact E0.
  - left. split_rets; reflexivity.
Qed.

(** X17: the [int] objects behind the flag pointers and [longindex] change
    only when a long option is matched.  [getopt] never writes them; a call of
    [getopt_long] that returns leaves them as they were, or has stored the
    index of one descriptor of the table through [longindex] and the value of
    that descriptor through its flag pointer. *)
Theorem flags_change_only_on_a_match (fuel : nat) (argc : Z)
    (optstring : string) (longopts : list long_option)
    (longindex : option nat) (s : state) (r : Z) (s' : state) :
  getopt mem fuel argc optstring s = Ret (r, s')
  \/ getopt_long mem fuel argc optstring longopts longindex s = Ret (r, s') ->
  ints s' = ints s
  \/ exists (i : nat) (d : long_option),
       nth_error longopts i = Some d
       /\ ints s' = store_opt (flag d) (val d)
                      (store_opt longindex (Z.of_nat i) (ints s)).
Proof.
  intros [H|H].
  - left. apply getopt_leaves in H. tauto.
  - unfold getopt_long, no_more_optchars_long in H.
    destruct (enter_fields s) as (F1 & F2 & F3 & F4 & F5 & F6 & F7 & F8).
    rewrite <- F7.
    destruct (argc <=? optind (enter s)).
    { inversion H; subst. left; reflexivity. }
    destruct (arg_at (enter s) (optind (enter s))) as [[p|]| |] eqn:E0;
      simpl in H; try discriminate.
    2:{ inversion H; subst. left; reflexivity. }
    destruct (permute mem fuel argc p (enter s)) as [f| |] eqn:E1;
      simpl in H; try discriminate.
    apply permute_frame in E1. destruct E1 as [Hs _].
    destruct f as [s1|s1]; simpl in *.
    + inversion H; subst; simpl. left. rewrite Hs; reflexivity.
    + destruct (arg_at s1 (optind s1)) as [[q|]| |] eqn:E2;
        simpl in H; try discriminate.
      assert (Hi : ints s1 = ints (enter s)) by (rewrite Hs; reflexivity).
      rewrite <- Hi. unfold getopt_long_at in H.
      destruct (Nat.ltb (strlen (load mem q)) 3
                || negb (strncmp_eq (load mem q) "--" 2)).
      * left. apply getopt_leaves in H. tauto.
      * apply long_option_at_ints in H. exact H.
Qed.

(** *** An anchor left over from another array *)

Lemma rotate_to_option_spins (argc : Z) (pre post : list (option cptr))
    (anchor : cptr) :
  forall (fuel : nat) (w : list cptr) (s : state),
    (2 <= List.length w)%nat ->
    Forall (fun q => deref mem q <> "-"%char /\ q <> anchor) w ->
    argv s = pre ++ map Some w ++ post ->
    optind s = Z.of_nat (List.length pre) ->
    first s = Some anchor ->
    argc = Z.of_nat (List.length pre + List.length w) ->
    rotate_to_option mem fuel argc s = Timeout.
Proof.
  induction fuel as [|k IH]; intros w s Hlen Hw Ha Hi Hf Hc; [reflexivity|].
  destruct w as [|e T0]; [simpl in Hlen; lia|].
  cbn [rotate_to_option]. rewrite Ha, Hi.
  replace (argc - Z.of_nat (List.length pre))
    with (Z.of_nat (S (List.length (map Some T0))))
    by (rewrite length_map, Hc; cbn [List.length]; lia).
  cbn [map app]. rewrite rotate_drops.
  destruct T0 as [|e2 T]; [simpl in Hlen; lia|].
  cbn [bind]. unfold arg_at. cbn [argv set_argv optind first].
  rewrite Hi, Hf.
  replace (Z.of_nat (List.length pre) <? 0) with false
    by (symmetry; apply Z.ltb_ge; lia).
  rewrite Nat2Z.id, nth_error_app2, Nat.sub_diag by lia.
  cbn [map app nth_error bind ptr_eqb].
  pose proof (Forall_inv (Forall_inv_tail Hw)) as [H1 H2].
  apply Ascii.eqb_neq in H1. rewrite H1.
  assert (E : cptr_eqb e2 anchor = false).
  { destruct (cptr_eqb e2 anchor) eqn:E; [|reflexivity].
    apply cptr_eqb_eq in E. contradiction. }
  rewrite E. cbn [negb andb].
  apply (IH (e2 :: T ++ [e])).
  - cbn [List.length]. rewrite length_app. cbn [List.length]. lia.
  - pose proof (Forall_inv Hw) as He.
    pose proof (Forall_inv_tail Hw) as Ht.
    change (e2 :: T ++ [e]) with ((e2 :: T) ++ [e]).
    apply Forall_app. split; [exact Ht|]. constructor; [exact He|constructor].
  - cbn [argv set_argv map app]. rewrite map_app. cbn [map].
    rewrite <- app_assoc. reflexivity.
  - exact Hi.
  - exact Hf.
  - rewrite Hc. cbn [List.length]. rewrite length_app. cbn [List.length].
    f_equal. lia.
Qed.

(** X18: an anchor that is not an element of the array keeps the loop of
    lines 91-93 running.  When the anchor is set, as it is after
    [getopt_long] has ended a pass at line 211, and a new pass starts over two
    or more operands none of which is that pointer, neither [getopt] nor
    [getopt_long] returns, whatever number of rotations is allowed. *)
Theorem foreign_anchor_never_returns (fuel : nat) (argc : Z)
    (optstring : string) (longopts : list long_option)
    (longindex : option nat) (s : state) (a0 : option cptr)
    (ps : list cptr) (post : list (option cptr)) (anchor : cptr) :
  argv s = a0 :: map Some ps ++ post ->
  argc = Z.of_nat (S (List.length ps)) ->
  (2 <= List.length ps)%nat ->
  Forall (fun q => deref mem q <> "-"%char) ps ->
  first s = Some anchor ->
  ~ In anchor ps ->
  optind s <= 1 ->
  getopt mem fuel argc optstring s = Timeout
  /\ getopt_long mem fuel argc optstring longopts longindex s = Timeout.
Proof.
  intros Ha Hc Hlen Hops Hf Hnot Hi.
  destruct (enter_fields s) as (F1 & _ & _ & _ & _ & F6 & _).
  assert (Hie : optind (enter s) = 1) by (rewrite enter_optind; lia).
  assert (E : (argc <=? optind (enter s)) = false)
    by (apply Z.leb_gt; lia).
  destruct ps as [|p1 rest]; [simpl in Hlen; lia|].
  assert (Hat : arg_at (enter s) (optind (enter s)) = Ret (Some p1)).
  { unfold arg_at. rewrite Hie, F1, Ha. reflexivity. }
  assert (Hp : permute mem fuel argc p1 (enter s) = Timeout).
  { unfold permute.
    pose proof (Forall_inv Hops) as H1. apply Ascii.eqb_neq in H1.
    rewrite H1. cbn [negb].
    assert (E1 : (argc - optind (enter s) <=? 1) = false)
      by (apply Z.leb_gt; rewrite Hie, Hc; cbn [List.length] in *; lia).
    rewrite E1, F6, Hf. cbn [is_null].
    assert (P2 : Forall (fun q => deref mem q <> "-"%char /\ q <> anchor)
                        (p1 :: rest)).
    { apply Forall_forall. intros q Hq. split.
      - rewrite Forall_forall in Hops. apply Hops; exact Hq.
      - intros ->. contradiction. }
    assert (P3 : argv (enter s) = [a0] ++ map Some (p1 :: rest) ++ post)
      by (rewrite F1; exact Ha).
    assert (P5 : first (enter s) = Some anchor) by (rewrite F6; exact Hf).
    assert (P6 : argc = Z.of_nat (List.length [a0]
                                  + List.length (p1 :: rest)))
      by (rewrite Hc; reflexivity).
    rewrite (rotate_to_option_spins argc [a0] post anchor fuel
               (p1 :: rest) (enter s) Hlen P2 P3 Hie P5 P6).
    reflexivity. }
  split.
  - unfold getopt. rewrite E, Hat. cbn [bind]. rewrite Hp. reflexivity.
  - unfold getopt_long. rewrite E, Hat. cbn [bind]. rewrite Hp. reflexivity.
Qed.

(** X19: an option declared with a single colon whose character is the
    last one of its element takes the next element as its value, whatever
    that element is (it is not looked at, so it may start with '-'):
    [getopt] returns the character, [optarg] is [argv[optind + 1]], the
    cursor is cleared and the scan index moves by two. *)
Theorem required_value_is_next_element (fuel : nat) (argc : Z)
    (optstring : string) (s s1 : state) (p c : cptr) (d : nat)
    (a : option cptr) :
  reaches mem fuel argc s s1 p ->
  load mem p <> "-"%string ->
  load mem p <> "--"%string ->
  optcursor (pick_cursor mem p s1) = Some c ->
  strchr optstring (deref mem c) = Some d ->
  char_at optstring (d + 1) = ":"%char ->
  char_at optstring (d + 2) <> ":"%char ->
  deref mem (ptr_add c 1) = zero ->
  optind s1 + 1 < argc ->
  arg_at s1 (optind s1 + 1) = Ret a ->
  exists s' : state,
    getopt mem fuel argc optstring s = Ret (int_of_char (deref mem c), s')
    /\ optarg s' = a
    /\ optcursor s' = None
    /\ optind s' = optind s1 + 2
    /\ argv s' = argv s1.
Proof.
  intros Hr Hn1 Hn2 Hc Hd Hreq Hopt Hend Hnext Ha.
  rewrite (getopt_reaches _ _ _ _ _ _ _ Hr).
  unfold getopt_at.
  apply String.eqb_neq in Hn1, Hn2. rewrite Hn1, Hn2.
  unfold short_option. rewrite Hc, Hd, Hreq, Hend, !Ascii.eqb_refl.
  apply Ascii.eqb_neq in Hopt. rewrite Hopt.
  destruct (pick_cursor_fields p s1) as (E1 & E2 & _).
  simpl. rewrite E2. apply Z.ltb_lt in Hnext. rewrite Hnext.
  unfold arg_at in *. simpl. rewrite E1, Ha.
  unfold advance. simpl. eexists. split; [reflexivity|]. simpl.
  rewrite E1. repeat split. lia.
Qed.

End Coverage.

(** ** The further properties at concrete command lines *)

(** [prog -x] with the table "help", "hex": the short option is read as
    [getopt] reads it. *)
Lemma getopt_long_falls_back_to_getopt_witness :
  getopt_long mem_unknown 1 2 "x" help_hex None (initial (args [0; 1]%nat))
  = getopt mem_unknown 1 2 "x" (initial (args [0; 1]%nat)).
Proof.
  apply (getopt_long_falls_back_to_getopt mem_unknown 1 2 "x" help_hex None
           (initial (args [0; 1]%nat)) (enter (initial (args [0; 1]%nat)))
           (mkptr 1 0)).
  - reach_at (mkptr 1 0).
  - intros [H _]. vm_compute in H. lia.
Defined.

(** One call on [prog x -a y], made with [opterr] at 1. *)
Lemma calls_never_write_diagnostics_witness :
  stderr mixed_after = stderr mixed /\ opterr mixed_after = 0.
Proof.
  apply (calls_never_write_diagnostics mem_operands 4 4 "a" [] None
           mixed 97 mixed_after).
  left. vm_compute. reflexivity.
Defined.

Lemma optind_advances_by_at_most_two_witness :
  Z.max 1 (optind mixed) <= optind mixed_after <= Z.max 1 (optind mixed) + 2.
Proof.
  apply (optind_advances_by_at_most_two mem_operands 4 4 "a" [] None
           mixed 97 mixed_after).
  left. vm_compute. reflexivity.
Defined.



(** [prog x]: the only element left is an operand. *)
Lemma pass_end_is_stable_witness :
  exists s1 : state,
    getopt mem_operands 1 2 EmptyString (initial (args [0; 1]%nat))
    = Ret (-1, s1)
    /\ argv s1 = argv (initial (args [0; 1]%nat))
    /\ optind s1 = Z.max 1 (optind (initial (args [0; 1]%nat)))
    /\ getopt mem_operands 1 2 EmptyString s1 = Ret (-1, s1).
Proof.
  apply (pass_end_is_stable mem_operands 1 2 EmptyString
           (initial (args [0; 1]%nat))).
  right. split; [reflexivity|]. right. exists (mkptr 1 0).
  split; [vm_compute; reflexivity|]. right.
  split; [vm_compute; discriminate | vm_compute; discriminate].
Defined.

(** [prog x -- y]: the array is left as [prog -- x y]. *)
Lemma double_dash_restores_operands_witness :
  exists s' : state,
    getopt mem_marker 4 4 EmptyString (initial (args [0; 1; 2; 3]%nat))
    = Ret (-1, s')
    /\ argv s' = [Some (mkptr 0 0)] ++ Some (mkptr 2 0)
                  :: (Some (mkptr 1 0) :: [] ++ [Some (mkptr 3 0)]) ++ []
    /\ optind s' = optind marker_reached + 1
    /\ first s' = None /\ optcursor s' = None.
Proof.
  apply (double_dash_restores_operands mem_marker 4 4 EmptyString
           (initial (args [0; 1; 2; 3]%nat)) marker_reached
           (mkptr 2 0) (mkptr 1 0)
           [Some (mkptr 0 0)] [Some (mkptr 3 0)] [] []).
  - split; [reflexivity|]. exists (mkptr 1 0).
    split; [vm_compute; reflexivity|].
    split; vm_compute; reflexivity.
  - vm_compute; reflexivity.
  - reflexivity.
  - reflexivity.
  - reflexivity.
  - reflexivity.
  - simpl. intros [H|[]]. discriminate.
  - simpl. intros [].
  - simpl; lia.
Defined.

(** [prog -oval] with the specification "o:". *)
Lemma attached_value_witness :
  exists s' : state,
    getopt mem_attached 1 2 "o:" (initial (args [0; 1]%nat))
    = Ret (int_of_char (deref mem_attached (mkptr 1 1)), s')
    /\ optarg s' = Some (ptr_add (mkptr 1 1) 1)
    /\ optcursor s' = None
    /\ optind s' = optind (enter (initial (args [0; 1]%nat))) + 1
    /\ argv s' = argv (enter (initial (args [0; 1]%nat))).
Proof.
  apply (attached_value mem_attached 1 2 "o:" (initial (args [0; 1]%nat))
           (enter (initial (args [0; 1]%nat))) (mkptr 1 0) (mkptr 1 1) 0).
  - reach_at (mkptr 1 0).
  - vm_compute; discriminate.
  - vm_compute; discriminate.
  - vm_compute; reflexivity.
  - vm_compute; reflexivity.
  - vm_compute; reflexivity.
  - vm_compute; discriminate.
Defined.

(** [prog -o] with the specification "o::". *)
Lemma optional_value_absent_witness :
  exists s' : state,
    getopt mem_missing 1 2 "o::" (initial (args [0; 1]%nat))
    = Ret (int_of_char (deref mem_missing (mkptr 1 1)), s')
    /\ optarg s' = None
    /\ optcursor s' = None
    /\ optind s' = optind (enter (initial (args [0; 1]%nat))) + 1
    /\ argv s' = argv (enter (initial (args [0; 1]%nat))).
Proof.
  apply (optional_value_absent mem_missing 1 2 "o::"
           (initial (args [0; 1]%nat))
           (enter (initial (args [0; 1]%nat))) (mkptr 1 0) (mkptr 1 1) 0).
  - reach_at (mkptr 1 0).
  - vm_compute; discriminate.
  - vm_compute; discriminate.
  - vm_compute; reflexivity.
  - vm_compute; reflexivity.
  - vm_compute; reflexivity.
  - vm_compute; reflexivity.
  - vm_compute; reflexivity.
Defined.

(** [prog -abc] with the specification "abc": three calls. *)
Lemma cluster_is_read_in_order_witness :
  exists s' : state,
    getopt_run mem_cluster (String.length "abc") 1 2 "abc"
               (initial (args [0; 1]%nat))
    = Ret (map int_of_char (list_ascii_of_string "abc"), s')
    /\ optind s' = Z.max 1 (optind (initial (args [0; 1]%nat))) + 1
    /\ argv s' = argv (initial (args [0; 1]%nat)).
Proof.
  apply (cluster_is_read_in_order mem_cluster 1 2 "abc"
           (initial (args [0; 1]%nat)) (mkptr 1 0) "abc").
  - reflexivity.
  - vm_compute; reflexivity.
  - vm_compute; reflexivity.
  - discriminate.
  - discriminate.
  - vm_compute; reflexivity.
  - reflexivity.
Defined.

(** [prog x -a y -b z] with the specification "ab": the calls return 'a',
    'b' and -1, and the array is left as [prog -a -b x y z] with the scan
    index at 3. *)
Lemma pass_sorts_options_before_operands_witness :
  exists s' : state,
    getopt_run mem_pass 3 6 6 "ab" (initial (args [0; 1; 2; 3; 4; 5]%nat))
    = Ret ([97; 98; -1], s')
    /\ argv s' = args [0; 2; 4; 1; 3; 5]%nat
    /\ optind s' = 3
    /\ first s' = None /\ optcursor s' = None.
Proof.
  assert (N : NoDup [mkptr 1 0; mkptr 2 0; mkptr 3 0; mkptr 4 0; mkptr 5 0])
    by (repeat constructor; simpl; intuition discriminate).
  assert (F : Forall (fun q => starts_with_dash mem_pass q = true ->
                               flag_element mem_pass "ab" q = true)
                     [mkptr 1 0; mkptr 2 0; mkptr 3 0; mkptr 4 0; mkptr 5 0]).
  { repeat (apply Forall_cons;
            [vm_compute; intros H; first [reflexivity | discriminate H]|]).
    apply Forall_nil. }
  exact (pass_sorts_options_before_operands mem_pass 6 6 "ab"
           (initial (args [0; 1; 2; 3; 4; 5]%nat)) (Some (mkptr 0 0))
           [mkptr 1 0; mkptr 2 0; mkptr 3 0; mkptr 4 0; mkptr 5 0] []
           eq_refl eq_refl N F ltac:(simpl; lia) eq_refl eq_refl
           ltac:(simpl; lia)).
Defined.

(** [prog --size=3] against a descriptor with a required value. *)
Lemma long_value_after_equals_witness :
  exists s' : state,
    getopt_long mem_values 1 2 EmptyString size_flag None
      (initial (args [0; 1]%nat))
    = Ret (0, s')
    /\ optarg s' = Some (ptr_add (mkptr 1 0) (6 + 1))
    /\ load mem_values (ptr_add (mkptr 1 0) (6 + 1))
       = sdrop (6 + 1) (load mem_values (mkptr 1 0))
    /\ optind s' = optind (enter (initial (args [0; 1]%nat))) + 1.
Proof.
  apply (long_value_after_equals mem_values 1 2 EmptyString size_flag None
           (initial (args [0; 1]%nat)) (enter (initial (args [0; 1]%nat)))
           (mkptr 1 0) 0 (mkopt "size" required_argument (Some 0%nat) 7) 6).
  - reach_at (mkptr 1 0).
  - split; [vm_compute; lia | vm_compute; reflexivity].
  - vm_compute; reflexivity.
  - reflexivity.
  - discriminate.
  - vm_compute; reflexivity.
Defined.

(** [prog --size 4] against the same descriptor. *)
Lemma long_value_from_next_element_witness :
  exists s' : state,
    getopt_long mem_values 1 3 EmptyString size_flag None
      (initial (args [0; 2; 3]%nat))
    = Ret (0, s')
    /\ optarg s' = Some (mkptr 3 0)
    /\ optind s' = optind (enter (initial (args [0; 2; 3]%nat))) + 2
    /\ argv s' = argv (enter (initial (args [0; 2; 3]%nat))).
Proof.
  apply (long_value_from_next_element mem_values 1 3 EmptyString size_flag
           None (initial (args [0; 2; 3]%nat))
           (enter (initial (args [0; 2; 3]%nat)))
           (mkptr 2 0) (mkptr 3 0) 0
           (mkopt "size" required_argument (Some 0%nat) 7)).
  - reach_at (mkptr 2 0).
  - split; [vm_compute; lia | vm_compute; reflexivity].
  - vm_compute; reflexivity.
  - reflexivity.
  - reflexivity.
  - vm_compute; reflexivity.
  - vm_compute; reflexivity.
  - vm_compute; reflexivity.
Defined.

(** [prog --color] against a descriptor with an optional value. *)
Lemma long_optional_value_absent_witness :
  exists s' : state,
    getopt_long mem_values 1 2 EmptyString color_option None
      (initial (args [0; 4]%nat))
    = Ret (99, s')
    /\ optarg s' = None
    /\ optind s' = optind (enter (initial (args [0; 4]%nat))) + 1
    /\ argv s' = argv (enter (initial (args [0; 4]%nat))).
Proof.
  apply (long_optional_value_absent mem_values 1 2 EmptyString color_option
           None (initial (args [0; 4]%nat))
           (enter (initial (args [0; 4]%nat))) (mkptr 4 0) 0
           (mkopt "color" optional_argument None 99)).
  - reach_at (mkptr 4 0).
  - split; [vm_compute; lia | vm_compute; reflexivity].
  - vm_compute; reflexivity.
  - reflexivity.
  - reflexivity.
  - vm_compute; reflexivity.
Defined.

(** [prog --size=3]: the flag location 0 receives the value 7. *)
Lemma flags_change_only_on_a_match_witness :
  ints sized_after = ints (initial (args [0; 1]%nat))
  \/ exists (i : nat) (d : long_option),
       nth_error size_flag i = Some d
       /\ ints sized_after
          = store_opt (flag d) (val d)
              (store_opt None (Z.of_nat i)
                 (ints (initial (args [0; 1]%nat)))).
Proof.
  apply (flags_change_only_on_a_match mem_values 1 2 EmptyString size_flag
           None (initial (args [0; 1]%nat)) 0 sized_after).
  right. vm_compute. reflexivity.
Defined.

(** [prog x y] with an anchor from elsewhere, and five rotations allowed. *)
Lemma foreign_anchor_never_returns_witness :
  getopt mem_operands 5 3 EmptyString foreign_anchor = Timeout
  /\ getopt_long mem_operands 5 3 EmptyString [] None foreign_anchor
     = Timeout.
Proof.
  apply (foreign_anchor_never_returns mem_operands 5 3 EmptyString [] None
           foreign_anchor (Some (mkptr 0 0)) [mkptr 1 0; mkptr 2 0] []
           (mkptr 9 0)).
  - reflexivity.
  - reflexivity.
  - simpl; lia.
  - repeat constructor; vm_compute; discriminate.
  - reflexivity.
  - simpl. intros [H|[H|[]]]; discriminate.
  - simpl; lia.
Defined.

(** [prog -o val] with the specification "o:". *)
Lemma required_value_is_next_element_witness :
  exists s' : state,
    getopt mem_value 1 3 "o:" (initial (args [0; 1; 2]%nat))
    = Ret (int_of_char (deref mem_value (mkptr 1 1)), s')
    /\ optarg s' = Some (mkptr 2 0)
    /\ optcursor s' = None
    /\ optind s' = optind (enter (initial (args [0; 1; 2]%nat))) + 2
    /\ argv s' = argv (enter (initial (args [0; 1; 2]%nat))).
Proof.
  apply (required_value_is_next_element mem_value 1 3 "o:"
           (initial (args [0; 1; 2]%nat))
           (enter (initial (args [0; 1; 2]%nat)))
           (mkptr 1 0) (mkptr 1 1) 0 (Some (mkptr 2 0))).
  - reach_at (mkptr 1 0).
  - vm_compute; discriminate.
  - vm_compute; discriminate.
  - vm_compute; reflexivity.
  - vm_compute; reflexivity.
  - vm_compute; reflexivity.
  - vm_compute; discriminate.
  - vm_compute; reflexivity.
  - vm_compute; reflexivity.
  - vm_compute; reflexivity.
Defined.
